(** * uses: searching packages for functions by argument and return type

    A shallow embedding of [main.go] and the properties of its filter,
    formatter and reporter.

    Go strings are byte sequences; they are modelled by [string], one
    [ascii] per byte.  A Go [error] is modelled by the text its [Error()]
    method returns, which is all the program ever does with one.  The
    packages the program delegates to ([go/build], [go/parser], [go/types],
    [gotool], the importer, [flag]) are collected in the record [World]. *)

From Stdlib Require Import ZArith Ascii String List.
From stdpp Require Import gmap strings list sorting.

Open Scope string_scope.
Open Scope list_scope.

(** String append computes under [simpl], as in the Standard Library. *)
#[local] Arguments String.append !s1 s2 : simpl nomatch.

(** ** The parts of the Go language and library the program uses *)

Module Go.

Definition nl : string := String "010"%char "".
Definition tab : string := String "009"%char "".

(** The bytes written by [fmt.Println(s)] / [fmt.Fprintln(w, s)]. *)
Definition Println (s : string) : string := s +:+ nl.

(** [for i := 0; i < n; i++ { s = body i s }] *)
Definition for_loop {St : Type} (n : nat) (body : nat -> St -> St) (s : St) : St :=
  fold_left (fun s i => body i s) (seq 0 n) s.

(** [for k, x := range xs { s = body k x s }], the index starting at [k]. *)
Fixpoint range_from {A St : Type} (k : nat) (xs : list A)
    (body : nat -> A -> St -> St) (s : St) : St :=
  match xs with
  | [] => s
  | x :: xs' => range_from (S k) xs' body (body k x s)
  end.

Definition range_slice {A St : Type} (xs : list A)
    (body : nat -> A -> St -> St) (s : St) : St :=
  range_from 0 xs body s.

(** [strings.Index(s, substr)]: the byte index of the first occurrence of
    [substr] in [s], or -1. *)
Fixpoint strings_Index_from (i : Z) (s substr : string) : Z :=
  if String.prefix substr s then i
  else match s with
       | "" => (-1)%Z
       | String _ s' => strings_Index_from (i + 1)%Z s' substr
       end.

Definition strings_Index (s substr : string) : Z :=
  strings_Index_from 0%Z s substr.

(** The slice expression [s[:hi]]. *)
Definition slice_to (s : string) (hi : Z) : string :=
  String.substring 0 (Z.to_nat hi) s.

(** [strings.Join(a, sep)] *)
Definition strings_Join (a : list string) (sep : string) : string :=
  String.concat sep a.

(** [sort.Strings]: the slice sorted in increasing order of Go's [<] on
    strings, which compares byte by byte; [String.le] is that order
    ([String.leb] of the Standard Library).  The library's algorithm is
    not part of the program: every sorting algorithm returns the same
    slice (lemma [sort_Strings_unique]), merge sort stands for it. *)
Definition sort_Strings (a : list string) : list string :=
  merge_sort String.le a.

(** [strings.Contains(s, substr)] *)
Definition strings_Contains (s substr : string) : bool :=
  (0 <=? strings_Index s substr)%Z.

(** [fmt.Sprintf(format, args...)] for string (and error) operands and the
    one verb the program uses, [%s].  An operand that is missing is
    written as [%!s(MISSING)], as the fmt package does.  Other verbs do not
    occur in the program; a [%] before any other byte is copied. *)
Fixpoint fmt_Sprintf (format : string) (args : list string) : string :=
  match format with
  | "" => ""
  | String "%" (String "s" rest) =>
      match args with
      | a :: args' => a +:+ fmt_Sprintf rest args'
      | [] => "%!s(MISSING)" +:+ fmt_Sprintf rest []
      end
  | String c rest => String c (fmt_Sprintf rest args)
  end.

(** [fmt.Errorf(format, args...)], the error being its text. *)
Definition fmt_Errorf (format : string) (args : list string) : string :=
  fmt_Sprintf format args.

(** The slice expression [s[lo:]]. *)
Definition slice_from (s : string) (lo : Z) : string :=
  String.substring (Z.to_nat lo) (String.length s - Z.to_nat lo) s.

(** The loop of [strings.Split(s, sep)] for a separator that is not empty:
    cut at the first occurrence of [sep] and go on behind it, until there
    is none.  Every round takes at least one byte off [s], so [fuel] rounds
    are enough for a string of [fuel] bytes.  (With the empty separator Go
    splits after every UTF-8 sequence instead; the program never asks for
    that.) *)
Fixpoint genSplit (fuel : nat) (s sep : string) : list string :=
  let m := strings_Index s sep in
  if (m <? 0)%Z then [s]
  else match fuel with
       | 0 => [s]
       | S fuel' =>
           slice_to s m
           :: genSplit fuel' (slice_from s (m + Z.of_nat (String.length sep))%Z) sep
       end.

Definition strings_Split (s sep : string) : list string :=
  genSplit (String.length s) s sep.

End Go.

Import Go.

(** ** The declarations the type checker hands over *)

(** A [*types.Var], seen through [Name()] and [Type().String()]. *)
Record Var := mkVar { Var_Name : string; Type_String : string }.

(** A [*types.Tuple]: [Len()] is [length], [At(i)] is the lookup [!! i]. *)
Definition Tuple := list Var.

(** A [*types.Signature]; [Recv()] is nil for a function. *)
Record Signature := mkSignature {
  Recv : option Var;
  Params : Tuple;
  Results : Tuple
}.

(** What [fnc.Type()] is: a [*types.Signature], or (for the builtins of
    package unsafe) something else. *)
Inductive FuncType :=
| IsSignature (sig : Signature)
| NotSignature.

(** A [*types.Func]. *)
Record Func := mkFunc { Func_Name : string; Func_Type : FuncType }.

(** What [typ.Type()] of a [*types.TypeName] is: a [*types.Named] with its
    methods, or another type. *)
Inductive TypeOfName :=
| IsNamed (methods : list Func)
| NotNamed.

Inductive ObjectKind :=
| IsFunc (fnc : Func)
| IsTypeName (typ : TypeOfName)
| OtherObject.

(** A [types.Object] of a package scope; [Obj_Pkg] is [obj.Pkg().Path()]. *)
Record Object := mkObject { Obj_Kind : ObjectKind; Obj_Pkg : string }.

(** A [*types.Package], seen through its scope. *)
Record Package := mkPackage {
  Scope_Names : list string;
  Scope_Lookup : string -> Object
}.

(** A [*build.Package]. *)
Record BuildPackage := mkBuildPackage {
  Goroot : bool;
  Dir : string;
  GoFiles : list string
}.

(** A parsed file, [*ast.File]; the program only passes it on. *)
Inductive ast_File := AstFile (fileName : string).

(** The collaborators of the program.  A call that can fail returns
    [inl err] or [inr value]. *)
Record World := mkWorld {
  gotool_ImportPaths : list string -> list string;
  build_Import : string -> string + BuildPackage;
  types_GcImport : string -> string + Package;
  filepath_Join : string -> string -> string;
  parser_ParseFile : string -> string + ast_File;
  types_Check : string -> list ast_File -> string + Package;
  (** [ctx.importer.Fallbacks] once the packages have been loaded *)
  importer_Fallbacks : list string;
  (** the text [flag.Usage()] writes to standard error *)
  flag_Usage : string
}.

(** The command line as [flag.Parse] leaves it. *)
Record Flags := mkFlags {
  packages : list string;
  arguments : list string;
  returns : list string;
  and : bool
}.

(** What a run leaves behind. *)
Record Outcome := mkOutcome {
  Stdout : string;
  Stderr : string;
  ExitCode : Z
}.

(** ** The program *)

Definition parseFile (W : World) (fileName : string) : string + ast_File :=
  match parser_ParseFile W fileName with
  | inl err => inl (fmt_Errorf "could not parse: %s" [err])
  | inr astFile => inr astFile
  end.

Definition check (W : World) (name : string) (astFiles : list ast_File)
    : string + Package :=
  types_Check W name astFiles.

(** The loop over [buildPkg.GoFiles] in [getObjects]; [inl] is the error
    appended before [continue pathLoop]. *)
Fixpoint parseFiles (W : World) (dir : string) (files : list string)
    (astFiles : list ast_File) : string + list ast_File :=
  match files with
  | [] => inr astFiles
  | file :: files' =>
      match parseFile W (filepath_Join W dir file) with
      | inl err => inl (fmt_Errorf "Couldn't parse %s: %s" [err])
      | inr astFile => parseFiles W dir files' (astFiles ++ [astFile])
      end
  end.

(** One package of [getObjects], up to the point where [pkg] is known. *)
Definition loadPackage (W : World) (path : string) : string + Package :=
  match build_Import W path with
  | inl err => inl (fmt_Errorf "Couldn't import %s: %s" [path; err])
  | inr buildPkg =>
      if Goroot buildPkg then
        match types_GcImport W path with
        | inl err => inl (fmt_Errorf "Couldn't import %s: %s" [path; err])
        | inr pkg => inr pkg
        end
      else if (length (GoFiles buildPkg) =? 0)%nat then
        inl (fmt_Errorf "Couldn't parse %s: No (non cgo) Go files" [path])
      else
        match parseFiles W (Dir buildPkg) (GoFiles buildPkg) [] with
        | inl err => inl err
        | inr astFiles =>
            match check W path astFiles with
            | inl err => inl (fmt_Errorf ("Couldn't parse %s: %s" +:+ nl) [path; err])
            | inr pkg => inr pkg
            end
        end
  end.

(** The body of [pathLoop], on the pair [(objects, errors)]. *)
Definition getObjects_body (W : World) (path : string)
    (st : list Object * list string) : list Object * list string :=
  let '(objects, errors) := st in
  match loadPackage W path with
  | inl err => (objects, errors ++ [err])
  | inr pkg =>
      (range_slice (Scope_Names pkg)
         (fun _ n objects => objects ++ [Scope_Lookup pkg n]) objects,
       errors)
  end.

Definition getObjects (W : World) (paths : list string)
    : list Object * list string :=
  range_slice paths (fun _ path st => getObjects_body W path st) ([], []).

(** The struct [function]: a [*types.Func] and the path of its package. *)
Record function := mkFunction { fn : Func; Pkg : string }.

Definition getFunctions_body (obj : Object) (funcs : list function)
    : list function :=
  match Obj_Kind obj with
  | IsFunc fnc => funcs ++ [mkFunction fnc (Obj_Pkg obj)]
  | IsTypeName (IsNamed methods) =>
      for_loop (length methods)
        (fun i funcs =>
           match methods !! i with
           | Some m => funcs ++ [mkFunction m (Obj_Pkg obj)]
           | None => funcs
           end) funcs
  | _ => funcs
  end.

Definition getFunctions (W : World) (paths : list string)
    : list function * list string :=
  let '(objects, errors) := getObjects W paths in
  (range_slice objects (fun _ obj funcs => getFunctions_body obj funcs) [],
   errors).

(** [listErrors] writes with [fmt.Println], that is to standard output;
    the result is the text written. *)
Definition listErrors (errors : list string) : string :=
  range_slice errors (fun _ err out => out +:+ Println err) "".

(** The separator literal of [noDot], byte for byte as in the source file:
    0xC3 0x82 0xC2 0xB7. *)
Definition noDot_separator : string :=
  String "195"%char (String "130"%char (String "194"%char (String "183"%char ""))).

Definition noDot (s : string) : string :=
  let index := strings_Index s noDot_separator in
  if (index =? -1)%Z then s else slice_to s index.

Definition argsToString (args : Tuple) : string :=
  let ret := replicate (length args) "" in
  let ret :=
    for_loop (length args)
      (fun i ret =>
         match args !! i with
         | Some v =>
             let name := noDot (Var_Name v) in
             let typ := Type_String v in
             if (String.length name =? 0)%nat then <[i := typ]> ret
             else <[i := name +:+ " " +:+ typ]> ret
         | None => ret
         end) ret in
  strings_Join ret ", ".

(** The final loop of [checkTypes] over [matched]. *)
Fixpoint all_matched (matched : list bool) : bool :=
  match matched with
  | [] => true
  | b :: matched' => if negb b then false else all_matched matched'
  end.

Definition checkTypes (args : Tuple) (types : list string) : bool * bool :=
  let matched := replicate (length types) false in
  let '(matched, any) :=
    for_loop (length args)
      (fun i st =>
         match args !! i with
         | Some v =>
             range_slice types
               (fun k toCheck '(matched, any) =>
                  if String.eqb (Type_String v) toCheck
                  then (<[k := true]> matched, true)
                  else (matched, any)) st
         | None => st
         end) (matched, false) in
  (any, all_matched matched).

(** The condition of the [if] that keeps a declaration in [main]. *)
Definition keep (and : bool) (arguments returns : list string)
    (sig : Signature) : bool :=
  let '(anyArg, allArg) := checkTypes (Params sig) arguments in
  let '(anyRet, allRet) := checkTypes (Results sig) returns in
  (negb and && (anyArg || anyRet)) || (and && allArg && allRet).

(** The signature line of a kept declaration. *)
Definition signatureLine (name : string) (sig : Signature) : string :=
  let prefix :=
    match Recv sig with
    | Some recv =>
        fmt_Sprintf "(%s %s) " [noDot (Var_Name recv); Type_String recv]
    | None => ""
    end in
  fmt_Sprintf "%s%s(%s) (%s)"
    [prefix; name; argsToString (Params sig); argsToString (Results sig)].

(** The body of the loop over [funcs] in [main], on the map [signatures]. *)
Definition collect_body (fl : Flags) (fnc : function)
    (signatures : gmap string (list string)) : gmap string (list string) :=
  match Func_Type (fn fnc) with
  | NotSignature => signatures
  | IsSignature sig =>
      if keep (and fl) (arguments fl) (returns fl) sig then
        <[Pkg fnc := default [] (signatures !! Pkg fnc)
                       ++ [signatureLine (Func_Name (fn fnc)) sig]]> signatures
      else signatures
  end.

Definition collect (fl : Flags) (funcs : list function)
    : gmap string (list string) :=
  range_slice funcs (fun _ fnc signatures => collect_body fl fnc signatures) ∅.

(** [for k := range m] visits the keys of [m] once each, in an order the
    language leaves open; [order] is the order of one run. *)
Definition range_order_ok (order : gmap string (list string) -> list string)
    : Prop :=
  forall m, order m ≡ₚ (map_to_list m).*1.

Definition sortedKeys (order : gmap string (list string) -> list string)
    (m : gmap string (list string)) : list string :=
  let keys := range_slice (order m) (fun _ k keys => keys ++ [k]) [] in
  sort_Strings keys.

(** The last loop of [main]: the text of the report. *)
Definition printReport (keys : list string)
    (signatures : gmap string (list string)) : string :=
  range_slice keys
    (fun _ path out =>
       let sigs := default [] (signatures !! path) in
       let out := out +:+ Println (path +:+ ":") in
       let out := range_slice sigs (fun _ sig out => out +:+ Println (tab +:+ sig)) out in
       out +:+ Println "") "".

Definition fallbackBanner (W : World) : string :=
  if (0 <? length (importer_Fallbacks W))%nat then
    let err := Println "Relying on gc generated data for..." in
    let err :=
      range_slice (importer_Fallbacks W) (fun _ path err => err +:+ Println path) err in
    err +:+ Println ""
  else "".

Definition main (W : World)
    (order : gmap string (list string) -> list string) (fl : Flags) : Outcome :=
  if (length (packages fl) =? 0)%nat then
    mkOutcome ""
      (Println "Need to specify at least one package to check." +:+ flag_Usage W) 1
  else if (length (arguments fl) + length (returns fl) =? 0)%nat then
    mkOutcome ""
      (Println "Need at least one type to search for." +:+ flag_Usage W) 1
  else
    let '(funcs, errs) := getFunctions W (gotool_ImportPaths W (packages fl)) in
    let out := listErrors errs in
    let err := fallbackBanner W in
    let signatures := collect fl funcs in
    let out := out +:+ printReport (sortedKeys order signatures) signatures in
    mkOutcome out err 0.

(** ** The properties of the specification, in its own words *)

(** Some parameter (or result) type is an entry of the filter set. *)
Definition spec_any_match (args : Tuple) (types : list string) : Prop :=
  exists v t, v ∈ args /\ t ∈ types /\ Type_String v = t.

(** Every entry of the filter set is the type of some parameter (or
    result): the filter set is covered. *)
Definition spec_covered (args : Tuple) (types : list string) : Prop :=
  forall t, t ∈ types -> exists v, v ∈ args /\ Type_String v = t.

(** One parameter as displayed: [name Type], or bare [Type] when there is
    no name to show. *)
Definition spec_render_var (v : Var) : string :=
  let name := noDot (Var_Name v) in
  if decide (name = "") then Type_String v
  else name +:+ " " +:+ Type_String v.

(** [sep] occurs in [s]. *)
Definition occurs_in (sep s : string) : Prop :=
  exists a b, s = a +:+ sep +:+ b.

(** What one package contributes to the result of [getObjects]. *)
Definition package_errors (W : World) (path : string) : list string :=
  match loadPackage W path with
  | inl err => [err]
  | inr _ => []
  end.

Definition package_objects (W : World) (path : string) : list Object :=
  match loadPackage W path with
  | inl _ => []
  | inr pkg => Scope_Lookup pkg <$> Scope_Names pkg
  end.

(** The functions and methods one scope object stands for. *)
Definition object_functions (obj : Object) : list function :=
  match Obj_Kind obj with
  | IsFunc fnc => [mkFunction fnc (Obj_Pkg obj)]
  | IsTypeName (IsNamed methods) =>
      (fun m => mkFunction m (Obj_Pkg obj)) <$> methods
  | _ => []
  end.

Definition package_functions (W : World) (path : string) : list function :=
  concat (object_functions <$> package_objects W path).

(** A declaration is reported: it has a signature and passes the filter. *)
Definition reported (fl : Flags) (fnc : function) : bool :=
  match Func_Type (fn fnc) with
  | IsSignature sig => keep (and fl) (arguments fl) (returns fl) sig
  | NotSignature => false
  end.

(** The line a reported declaration is shown as. *)
Definition line_of (fnc : function) : string :=
  match Func_Type (fn fnc) with
  | IsSignature sig => signatureLine (Func_Name (fn fnc)) sig
  | NotSignature => ""
  end.

(** The reported declarations of package [path], in the order met. *)
Definition group_of (fl : Flags) (funcs : list function) (path : string)
    : list string :=
  line_of <$> filter (fun fnc => reported fl fnc = true /\ Pkg fnc = path) funcs.

(** One block of the report. *)
Definition spec_block (path : string) (sigs : list string) : string :=
  Println (path +:+ ":")
  +:+ String.concat "" ((fun sig => Println (tab +:+ sig)) <$> sigs)
  +:+ Println "".

(** ** Sample inputs *)

(** The middle dot of compiler-generated names, U+00B7: 0xC2 0xB7. *)
Definition middle_dot : string := String "194"%char (String "183"%char "").

Definition sample_pkg_a : Package :=
  mkPackage ["Parse"]
    (fun _ =>
       mkObject
         (IsFunc (mkFunc "Parse"
            (IsSignature
               (mkSignature None [mkVar "s" "string"]
                  [mkVar "" "int"; mkVar "" "error"]))))
         "lib/a").

Definition sample_pkg_b : Package :=
  mkPackage ["File"; "Open"; "Version"]
    (fun n =>
       if String.eqb n "Open" then
         mkObject
           (IsFunc (mkFunc "Open"
              (IsSignature
                 (mkSignature None [mkVar "name" "string"]
                    [mkVar "" "*File"; mkVar "" "error"]))))
           "lib/b"
       else if String.eqb n "File" then
         mkObject
           (IsTypeName (IsNamed
              [mkFunc "Close"
                 (IsSignature
                    (mkSignature (Some (mkVar "f" "*File")) []
                       [mkVar "" "error"]));
               mkFunc "Size"
                 (IsSignature
                    (mkSignature (Some (mkVar "f" "*File")) []
                       [mkVar "" "int64"]))]))
           "lib/b"
       else mkObject OtherObject "lib/b").

(** Four packages.  [lib/a] is precompiled and [lib/b] is read from
    source.  [./pkg], a directory below the working directory, has one file
    [a.go]: a package clause, a declaration, and then a comment that is
    never closed; [build.Import] reads a file only as far as its imports
    and accepts it, the parser reads all of it and fails.  [empty] has test
    files only, so that [build.Import] succeeds with no entry in [GoFiles].
    Anything else is not found. *)
Definition sample_world : World :=
  mkWorld
    (fun paths => paths)
    (fun path =>
       if String.eqb path "lib/a" then inr (mkBuildPackage true "/go/src/lib/a" ["a.go"])
       else if String.eqb path "lib/b" then inr (mkBuildPackage false "/src/lib/b" ["b.go"])
       else if String.eqb path "./pkg" then inr (mkBuildPackage false "pkg" ["a.go"])
       else if String.eqb path "empty" then inr (mkBuildPackage false "empty" [])
       else inl "cannot find package")
    (fun path =>
       if String.eqb path "lib/a" then inr sample_pkg_a
       else inl "can't find import")
    (fun dir file => dir +:+ "/" +:+ file)
    (fun fileName =>
       if String.eqb fileName "pkg/a.go"
       then inl "pkg/a.go:5:1: comment not terminated"
       else inr (AstFile fileName))
    (fun path _ =>
       if String.eqb path "lib/b" then inr sample_pkg_b
       else inl "undeclared name: x")
    []
    "Usage of uses:".

Definition sample_flags : Flags :=
  mkFlags ["lib/b"; "nope"; "./pkg"; "lib/a"] ["string"] ["error"] false.

(** Two orders in which a [range] may visit the keys of a map. *)
Definition order_forward (m : gmap string (list string)) : list string :=
  (map_to_list m).*1.

Definition order_backward (m : gmap string (list string)) : list string :=
  reverse (map_to_list m).*1.

(** ** The command line *)

(** The type [stringSlice] of the three list flags. *)
Definition stringSlice := list string.

(** The method [String] of [stringSlice]. *)
Definition stringSlice_String (s : stringSlice) : string :=
  strings_Join s ",".

(** The method [Set] of [stringSlice]: the value the receiver holds
    afterwards; what it held before is dropped, and the error returned is
    always nil. *)
Definition stringSlice_Set (val : string) : stringSlice :=
  strings_Split val ",".

(** No occurrence of [sep] can begin inside a copy of [sep] and run past its
    end: a string followed by [sep] holds [sep] only where it is written. *)
Definition unbordered (sep : string) : Prop :=
  forall r u v : string,
    r <> "" -> String.length r < String.length sep ->
    sep +:+ u <> r +:+ sep +:+ v.

(** A declaration that has a signature. *)
Definition has_signature (fnc : function) : bool :=
  match Func_Type (fn fnc) with
  | IsSignature _ => true
  | NotSignature => false
  end.

(** ** Loops *)

Lemma range_from_fold {A St : Type} (k : nat) (xs : list A)
    (body : A -> St -> St) (s : St) :
  range_from k xs (fun _ x s => body x s) s = fold_left (fun s x => body x s) xs s.
Proof.
  revert k s. induction xs as [|x xs IH]; intros k s; simpl; [done|].
  apply IH.
Qed.

Lemma range_from_app {A St : Type} (k : nat) (xs ys : list A)
    (body : nat -> A -> St -> St) (s : St) :
  range_from k (xs ++ ys) body s
  = range_from (k + length xs) ys body (range_from k xs body s).
Proof.
  revert k s. induction xs as [|x xs IH]; intros k s; simpl.
  - by rewrite Nat.add_0_r.
  - rewrite IH. f_equal. lia.
Qed.

Lemma range_slice_snoc {A : Type} (xs : list A) (acc : list A) :
  range_slice xs (fun _ x acc => acc ++ [x]) acc = acc ++ xs.
Proof.
  unfold range_slice. generalize 0. revert acc.
  induction xs as [|x xs IH]; intros acc k; simpl.
  - by rewrite app_nil_r.
  - rewrite IH. by rewrite <- app_assoc.
Qed.

Lemma for_loop_from {A St : Type} (pre xs : list A)
    (body : nat -> A -> St -> St) (s : St) :
  fold_left
    (fun s i => match (pre ++ xs) !! i with Some x => body i x s | None => s end)
    (seq (length pre) (length xs)) s
  = range_from (length pre) xs body s.
Proof.
  revert pre s. induction xs as [|x xs IH]; intros pre s; simpl; [done|].
  rewrite list_lookup_middle by done.
  specialize (IH (pre ++ [x]) (body (length pre) x s)).
  rewrite <- app_assoc, length_app in IH. simpl in IH.
  rewrite Nat.add_1_r in IH. exact IH.
Qed.

Lemma for_loop_lookup {A St : Type} (xs : list A)
    (body : nat -> A -> St -> St) (s : St) :
  for_loop (length xs)
    (fun i s => match xs !! i with Some x => body i x s | None => s end) s
  = range_slice xs body s.
Proof. exact (for_loop_from [] xs body s). Qed.

Lemma insert_at_length {A : Type} (l1 l2 : list A) (x y : A) :
  <[length l1 := x]> (l1 ++ y :: l2) = l1 ++ x :: l2.
Proof.
  rewrite <- (Nat.add_0_r (length l1)) at 1. by rewrite insert_app_r.
Qed.

(** ** The filter: [checkTypes] *)

Lemma checkTypes_inner (ty : string) (ts : list string) :
  forall (pre suf : list bool) (any : bool),
    length suf = length ts ->
    range_from (length pre) ts
      (fun k toCheck '(matched, any) =>
         if String.eqb ty toCheck then (<[k := true]> matched, true)
         else (matched, any)) (pre ++ suf, any)
    = (pre ++ zip_with (fun m t => m || String.eqb ty t) suf ts,
       any || existsb (String.eqb ty) ts).
Proof.
  induction ts as [|t ts IH]; intros pre suf any Hlen.
  - destruct suf; [|done]. simpl. by rewrite orb_false_r.
  - destruct suf as [|m suf]; [done|]. simpl in Hlen.
    injection Hlen as Hlen. simpl.
    destruct (String.eqb ty t) eqn:E.
    + rewrite insert_at_length.
      specialize (IH (pre ++ [true]) suf true Hlen).
      rewrite length_app, Nat.add_1_r, <- app_assoc in IH. simpl in IH.
      rewrite IH, <- app_assoc. simpl.
      by rewrite !orb_true_r.
    + specialize (IH (pre ++ [m]) suf any Hlen).
      rewrite length_app, Nat.add_1_r, <- app_assoc in IH. simpl in IH.
      rewrite IH, <- app_assoc. simpl.
      by rewrite !orb_false_r.
Qed.

Lemma zip_with_orb_twice (P Q : string -> bool) (ts : list string) :
  forall matched : list bool,
    zip_with (fun m t => m || Q t) (zip_with (fun m t => m || P t) matched ts) ts
    = zip_with (fun m t => m || (P t || Q t)) matched ts.
Proof.
  induction ts as [|t ts IH]; intros [|m matched]; simpl; try done.
  by rewrite IH, orb_assoc.
Qed.

Lemma zip_with_length_same (matched : list bool) (ts : list string)
    (f : bool -> string -> bool) :
  length matched = length ts -> length (zip_with f matched ts) = length ts.
Proof. intros H. rewrite length_zip_with. lia. Qed.

Lemma checkTypes_outer (ts : list string) (args : Tuple) :
  forall (matched : list bool) (any : bool),
    length matched = length ts ->
    fold_left
      (fun st v =>
         range_slice ts
           (fun k toCheck '(matched, any) =>
              if String.eqb (Type_String v) toCheck
              then (<[k := true]> matched, true)
              else (matched, any)) st) args (matched, any)
    = (zip_with
         (fun m t => m || existsb (fun v => String.eqb (Type_String v) t) args)
         matched ts,
       any || existsb (fun v => existsb (String.eqb (Type_String v)) ts) args).
Proof.
  induction args as [|v args IH]; intros matched any Hlen; simpl.
  - rewrite orb_false_r. f_equal.
    revert ts Hlen. induction matched as [|m matched IHm]; intros [|t ts] Hlen;
      simpl in *; try done.
    rewrite orb_false_r. f_equal. apply IHm. lia.
  - pose proof (checkTypes_inner (Type_String v) ts [] matched any Hlen) as Hin.
    simpl in Hin. unfold range_slice at 2. rewrite Hin.
    rewrite IH by (by apply zip_with_length_same).
    rewrite zip_with_orb_twice. by rewrite orb_assoc.
Qed.

Lemma all_matched_zip (E : string -> bool) (ts : list string) :
  all_matched (zip_with (fun m t => m || E t) (replicate (length ts) false) ts)
  = forallb E ts.
Proof.
  induction ts as [|t ts IH]; simpl; [done|].
  rewrite IH. by destruct (E t).
Qed.

(** [checkTypes] in closed form: [any] and [all] as boolean quantifiers. *)
Lemma checkTypes_closed (args : Tuple) (types : list string) :
  checkTypes args types
  = (existsb (fun v => existsb (String.eqb (Type_String v)) types) args,
     forallb (fun t => existsb (fun v => String.eqb (Type_String v) t) args) types).
Proof.
  unfold checkTypes.
  rewrite (for_loop_lookup args
    (fun _ v st =>
       range_slice types
         (fun k toCheck '(matched, any) =>
            if String.eqb (Type_String v) toCheck
            then (<[k := true]> matched, true)
            else (matched, any)) st)).
  unfold range_slice at 1. rewrite range_from_fold.
  rewrite checkTypes_outer by apply length_replicate.
  simpl. by rewrite all_matched_zip.
Qed.

Lemma checkTypes_any (args : Tuple) (types : list string) :
  (checkTypes args types).1 = true <-> spec_any_match args types.
Proof.
  rewrite checkTypes_closed. simpl. unfold spec_any_match.
  rewrite existsb_exists. split.
  - intros (v & Hv & H). apply existsb_exists in H as (t & Ht & E).
    apply String.eqb_eq in E. exists v, t.
    by rewrite !list_elem_of_In.
  - intros (v & t & Hv & Ht & E). exists v.
    rewrite list_elem_of_In in Hv. split; [done|].
    apply existsb_exists. exists t. rewrite list_elem_of_In in Ht.
    split; [done|]. by apply String.eqb_eq.
Qed.

Lemma checkTypes_all (args : Tuple) (types : list string) :
  (checkTypes args types).2 = true <-> spec_covered args types.
Proof.
  rewrite checkTypes_closed. simpl. unfold spec_covered.
  rewrite forallb_forall. split.
  - intros H t Ht. rewrite list_elem_of_In in Ht.
    specialize (H t Ht). apply existsb_exists in H as (v & Hv & E).
    exists v. rewrite list_elem_of_In. split; [done|]. by apply String.eqb_eq.
  - intros H t Ht. rewrite <- list_elem_of_In in Ht.
    destruct (H t Ht) as (v & Hv & E). apply existsb_exists. exists v.
    rewrite list_elem_of_In in Hv. split; [done|]. by apply String.eqb_eq.
Qed.

Lemma keep_unfold (andMode : bool) (A R : list string) (sig : Signature) :
  keep andMode A R sig
  = (negb andMode
       && ((checkTypes (Params sig) A).1 || (checkTypes (Results sig) R).1))
    || (andMode && (checkTypes (Params sig) A).2 && (checkTypes (Results sig) R).2).
Proof.
  unfold keep.
  destruct (checkTypes (Params sig) A), (checkTypes (Results sig) R). done.
Qed.

Lemma keep_or (A R : list string) (sig : Signature) :
  keep false A R sig = true
  <-> spec_any_match (Params sig) A \/ spec_any_match (Results sig) R.
Proof.
  rewrite keep_unfold. simpl. rewrite orb_false_r, orb_true_iff.
  by rewrite !checkTypes_any.
Qed.

Lemma keep_and (A R : list string) (sig : Signature) :
  keep true A R sig = true
  <-> spec_covered (Params sig) A /\ spec_covered (Results sig) R.
Proof.
  rewrite keep_unfold. simpl. rewrite andb_true_iff.
  by rewrite !checkTypes_all.
Qed.

Lemma spec_any_match_types (args : Tuple) (types : list string) :
  spec_any_match args types
  <-> exists t, t ∈ Type_String <$> args /\ t ∈ types.
Proof.
  unfold spec_any_match. split.
  - intros (v & t & Hv & Ht & <-). exists (Type_String v). split; [|done].
    by apply list_elem_of_fmap_2.
  - intros (t & Ht & Hin). apply list_elem_of_fmap in Ht as (v & -> & Hv).
    by exists v, (Type_String v).
Qed.

Lemma spec_covered_types (args : Tuple) (types : list string) :
  spec_covered args types
  <-> forall t, t ∈ types -> t ∈ Type_String <$> args.
Proof.
  unfold spec_covered. split; intros H t Ht.
  - destruct (H t Ht) as (v & Hv & <-). by apply list_elem_of_fmap_2.
  - apply H, list_elem_of_fmap in Ht as (v & -> & Hv). by exists v.
Qed.

Lemma bool_eq_iff (b c : bool) : (b = true <-> c = true) -> b = c.
Proof. destruct b, c; intuition congruence. Qed.



(** C9: in OR mode a declaration that is kept stays kept when entries are
    added to the argument filter, to the return filter, or to both. *)
Theorem C9_or_mode_monotone
    (sig : Signature) (A A' R R' : list string) :
  A ⊆ A' -> R ⊆ R' ->
  keep false A R sig = true -> keep false A' R' sig = true.
Proof.
  intros HA HR. rewrite !keep_or.
  intros [(v & t & Hv & Ht & E)|(v & t & Hv & Ht & E)]; [left|right];
    exists v, t; auto.
Qed.

Lemma C9_or_mode_monotone_witness :
  keep false ["string"; "int"] ["error"; "bool"]
    (mkSignature None [mkVar "n" "int"] [mkVar "" "bool"]) = true.
Proof.
  apply (C9_or_mode_monotone _ ["int"] _ [] _).
  - intros x Hx. apply elem_of_cons. right. exact Hx.
  - intros x Hx. inversion Hx.
  - vm_compute. reflexivity.
Defined.

(** C10: whether a declaration is kept, in either mode, is determined by
    the type strings of its parameters and results and by the entries of the
    two filter sets as sets; names, the receiver and repeated filter entries
    play no part. *)
Theorem C10_keep_depends_on_types_only
    (andMode : bool) (sig sig' : Signature) (A A' R R' : list string) :
  Type_String <$> Params sig = Type_String <$> Params sig' ->
  Type_String <$> Results sig = Type_String <$> Results sig' ->
  (forall t, t ∈ A <-> t ∈ A') ->
  (forall t, t ∈ R <-> t ∈ R') ->
  keep andMode A R sig = keep andMode A' R' sig'.
Proof.
  intros HP HRes HA HR. apply bool_eq_iff. destruct andMode.
  - rewrite !keep_and, !spec_covered_types, HP, HRes.
    split; intros [H1 H2]; split; intros t Ht.
    + apply H1, HA, Ht.
    + apply H2, HR, Ht.
    + apply H1, HA, Ht.
    + apply H2, HR, Ht.
  - rewrite !keep_or, !spec_any_match_types, HP, HRes.
    split; (intros [(t & H1 & H2)|(t & H1 & H2)]; [left|right]; exists t;
            (split; [done|])).
    + by apply HA.
    + by apply HR.
    + by apply HA.
    + by apply HR.
Qed.

Lemma C10_keep_depends_on_types_only_witness :
  keep true ["int"; "int"] ["error"]
    (mkSignature (Some (mkVar "t" "*T")) [mkVar "count" "int"] [mkVar "err" "error"])
  = keep true ["int"] ["error"; "error"]
    (mkSignature None [mkVar "" "int"] [mkVar "" "error"]).
Proof.
  apply C10_keep_depends_on_types_only.
  - reflexivity.
  - reflexivity.
  - intros t. rewrite !elem_of_cons. tauto.
  - intros t. rewrite !elem_of_cons. tauto.
Defined.

(** ** The formatter: [noDot], [argsToString] and the signature line *)

Lemma string_app_assoc (a b c : string) : (a +:+ b) +:+ c = a +:+ b +:+ c.
Proof. induction a as [|x a IH]; simpl; [done|]. by rewrite IH. Qed.

Lemma string_app_nil_r (a : string) : a +:+ "" = a.
Proof. induction a as [|x a IH]; simpl; [done|]. by rewrite IH. Qed.

Lemma string_length_app (a b : string) :
  String.length (a +:+ b) = String.length a + String.length b.
Proof. induction a as [|x a IH]; simpl; [done|]. by rewrite IH. Qed.

Lemma prefix_app (p s : string) :
  String.prefix p s = true <-> exists b, s = p +:+ b.
Proof.
  revert s. induction p as [|c p IH]; intros s.
  - split; [|by destruct s]. intros _. by exists s.
  - destruct s as [|d s]; simpl.
    + split; [done|]. by intros [b Hb].
    + destruct (ascii_dec c d) as [->|Hne].
      * rewrite IH. split; intros [b Hb]; exists b; congruence.
      * split; [done|]. intros [b Hb]. congruence.
Qed.

Lemma substring_app_l (a rest : string) :
  String.substring 0 (String.length a) (a +:+ rest) = a.
Proof.
  induction a as [|c a IH]; simpl.
  - by destruct rest.
  - by rewrite IH.
Qed.

Lemma strings_Index_from_nil (i : Z) (sep : string) :
  strings_Index_from i "" sep = if String.prefix sep "" then i else (-1)%Z.
Proof. reflexivity. Qed.

Lemma strings_Index_from_cons (i : Z) (c : ascii) (s sep : string) :
  strings_Index_from i (String c s) sep
  = if String.prefix sep (String c s) then i
    else strings_Index_from (i + 1)%Z s sep.
Proof. reflexivity. Qed.

(** [strings_Index] finds the first occurrence, or none when there is
    none. *)
Lemma strings_Index_from_spec (sep s : string) (i : Z) :
  (strings_Index_from i s sep = (-1)%Z /\ ~ occurs_in sep s)
  \/ (exists a b, s = a +:+ sep +:+ b
        /\ strings_Index_from i s sep = (i + Z.of_nat (String.length a))%Z
        /\ forall a' b', s = a' +:+ sep +:+ b' ->
             String.length a <= String.length a').
Proof.
  revert i. induction s as [|c s IH]; intros i.
  - rewrite strings_Index_from_nil.
    destruct (String.prefix sep "") eqn:E.
    + right. apply prefix_app in E as [b Hb]. exists "", b. simpl.
      split; [done|]. split; [lia|]. intros; lia.
    + left. split; [done|]. intros (a & b & H).
      destruct a; [|done]. simpl in H.
      assert (String.prefix sep "" = true) by (apply prefix_app; eauto).
      congruence.
  - rewrite strings_Index_from_cons.
    destruct (String.prefix sep (String c s)) eqn:E.
    + right. apply prefix_app in E as [b Hb]. exists "", b. simpl.
      split; [done|]. split; [lia|]. intros; lia.
    + destruct (IH (i + 1)%Z) as [[Hi Hno]|(a & b & Hs & Hi & Hmin)].
      * left. split; [done|]. intros (a & b & H). destruct a as [|d a].
        -- simpl in H.
           assert (String.prefix sep (String c s) = true)
             by (apply prefix_app; eauto). congruence.
        -- simpl in H. injection H as _ H. apply Hno. by exists a, b.
      * right. exists (String c a), b. simpl. split; [by rewrite Hs|].
        split; [lia|]. intros a' b' H. destruct a' as [|d a'].
        -- simpl in H.
           assert (String.prefix sep (String c s) = true)
             by (apply prefix_app; eauto). congruence.
        -- simpl in H. injection H as _ H. simpl.
           specialize (Hmin a' b' H). lia.
Qed.

(** [noDot] leaves a name without the separator literal alone and cuts any
    other name at the first occurrence of the literal. *)
Lemma noDot_spec (s : string) :
  (~ occurs_in noDot_separator s /\ noDot s = s)
  \/ (exists b, s = noDot s +:+ noDot_separator +:+ b
        /\ forall a' b', s = a' +:+ noDot_separator +:+ b' ->
             String.length (noDot s) <= String.length a').
Proof.
  unfold noDot, strings_Index.
  destruct (strings_Index_from_spec noDot_separator s 0)
    as [[Hi Hno]|(a & b & Hs & Hi & Hmin)].
  - left. by rewrite Hi.
  - right. rewrite Hi.
    destruct (0 + Z.of_nat (String.length a) =? -1)%Z eqn:E; [lia|].
    unfold slice_to. rewrite Z.add_0_l, Nat2Z.id.
    assert (String.substring 0 (String.length a) s = a) as ->
      by (rewrite Hs; apply substring_app_l).
    eauto.
Qed.

Lemma string_length_zero (s : string) :
  (String.length s =? 0)%nat = true <-> s = "".
Proof. destruct s; simpl; split; done. Qed.

Lemma argsToString_loop (xs : Tuple) :
  forall filled : list string,
    range_from (length filled) xs
      (fun i v ret =>
         let name := noDot (Var_Name v) in
         let typ := Type_String v in
         if (String.length name =? 0)%nat then <[i := typ]> ret
         else <[i := name +:+ " " +:+ typ]> ret)
      (filled ++ replicate (length xs) "")
    = filled ++ (spec_render_var <$> xs).
Proof.
  induction xs as [|v xs IH]; intros filled; simpl; [done|].
  assert (forall r : string,
    filled ++ r :: replicate (length xs) ""
    = (filled ++ [r]) ++ replicate (length xs) "") as Hsh
    by (intros; by rewrite <- app_assoc).
  assert (forall r : string,
    filled ++ r :: (spec_render_var <$> xs)
    = (filled ++ [r]) ++ (spec_render_var <$> xs)) as Hsh'
    by (intros; by rewrite <- app_assoc).
  assert (S (length filled) = length (filled ++ [spec_render_var v])) as Hl
    by (rewrite length_app; simpl; lia).
  unfold spec_render_var at 1 in Hl. unfold spec_render_var at 1.
  destruct (String.length (noDot (Var_Name v)) =? 0)%nat eqn:E.
  - apply string_length_zero in E.
    rewrite decide_True in Hl |- * by done.
    rewrite insert_at_length, Hsh, Hsh', Hl. apply IH.
  - assert (noDot (Var_Name v) <> "") as Hne.
    { intros H. apply string_length_zero in H. congruence. }
    rewrite decide_False in Hl |- * by done.
    rewrite insert_at_length, Hsh, Hsh', Hl. apply IH.
Qed.

(** The parameter list as displayed: the parameters, each rendered by
    [spec_render_var], joined by a comma and a space. *)
Lemma argsToString_spec (args : Tuple) :
  argsToString args = String.concat ", " (spec_render_var <$> args).
Proof.
  unfold argsToString, strings_Join. f_equal.
  rewrite (for_loop_lookup args
    (fun i v ret =>
       let name := noDot (Var_Name v) in
       let typ := Type_String v in
       if (String.length name =? 0)%nat then <[i := typ]> ret
       else <[i := name +:+ " " +:+ typ]> ret)).
  exact (argsToString_loop args []).
Qed.

(** The signature line: receiver prefix for a method, the name, the
    parameter list in parentheses, the result list in parentheses. *)
Lemma signatureLine_spec (name : string) (sig : Signature) :
  signatureLine name sig
  = match Recv sig with
    | Some recv =>
        "(" +:+ noDot (Var_Name recv) +:+ " " +:+ Type_String recv +:+ ") "
    | None => ""
    end
    +:+ name
    +:+ "(" +:+ String.concat ", " (spec_render_var <$> Params sig) +:+ ")"
    +:+ " (" +:+ String.concat ", " (spec_render_var <$> Results sig) +:+ ")".
Proof.
  unfold signatureLine. rewrite !argsToString_spec.
  destruct (Recv sig) as [recv|]; simpl; rewrite ?string_app_nil_r; done.
Qed.

(** ** The extractor: [getObjects] and [getFunctions] *)

Lemma range_slice_gather {A B : Type} (g : A -> list B) (xs : list A)
    (acc : list B) :
  range_slice xs (fun _ x acc => acc ++ g x) acc = acc ++ concat (g <$> xs).
Proof.
  unfold range_slice. rewrite range_from_fold. revert acc.
  induction xs as [|x xs IH]; intros acc; simpl.
  - by rewrite app_nil_r.
  - by rewrite IH, app_assoc.
Qed.

Lemma concat_singletons {A B : Type} (f : A -> B) (xs : list A) :
  concat ((fun x => [f x]) <$> xs) = f <$> xs.
Proof. induction xs as [|x xs IH]; csimpl; [done|]. by rewrite IH. Qed.

Lemma getObjects_body_spec (W : World) (path : string)
    (objects : list Object) (errors : list string) :
  getObjects_body W path (objects, errors)
  = (objects ++ package_objects W path, errors ++ package_errors W path).
Proof.
  unfold getObjects_body, package_objects, package_errors.
  destruct (loadPackage W path) as [err|pkg].
  - by rewrite app_nil_r.
  - rewrite (range_slice_gather (fun n => [Scope_Lookup pkg n])).
    by rewrite (concat_singletons (Scope_Lookup pkg)), app_nil_r.
Qed.

Lemma getObjects_loop (W : World) (paths : list string) :
  forall (objects : list Object) (errors : list string),
    fold_left (fun st path => getObjects_body W path st) paths (objects, errors)
    = (objects ++ concat (package_objects W <$> paths),
       errors ++ concat (package_errors W <$> paths)).
Proof.
  induction paths as [|path paths IH]; intros objects errors.
  - simpl. by rewrite !app_nil_r.
  - rewrite !fmap_cons. cbn [fold_left concat].
    rewrite getObjects_body_spec, IH. by rewrite !app_assoc.
Qed.

(** [getObjects] works package by package: objects and errors are those of
    the single packages, in the order of [paths]. *)
Lemma getObjects_spec (W : World) (paths : list string) :
  getObjects W paths
  = (concat (package_objects W <$> paths), concat (package_errors W <$> paths)).
Proof.
  unfold getObjects, range_slice. rewrite range_from_fold.
  apply getObjects_loop.
Qed.

Lemma getFunctions_body_spec (obj : Object) (funcs : list function) :
  getFunctions_body obj funcs = funcs ++ object_functions obj.
Proof.
  unfold getFunctions_body, object_functions.
  destruct (Obj_Kind obj) as [fnc|[methods|]|]; try by rewrite app_nil_r.
  - done.
  - rewrite (for_loop_lookup methods
      (fun _ m funcs => funcs ++ [mkFunction m (Obj_Pkg obj)])).
    rewrite (range_slice_gather (fun m => [mkFunction m (Obj_Pkg obj)])).
    by rewrite (concat_singletons (fun m => mkFunction m (Obj_Pkg obj))).
Qed.

Lemma concat_fmap_concat {A B : Type} (g : A -> list B) (xss : list (list A)) :
  concat (g <$> concat xss) = concat ((fun xs => concat (g <$> xs)) <$> xss).
Proof.
  induction xss as [|xs xss IH]; simpl; [done|].
  by rewrite fmap_app, concat_app, IH.
Qed.

(** [getFunctions] works package by package as well. *)
Lemma getFunctions_spec (W : World) (paths : list string) :
  getFunctions W paths
  = (concat (package_functions W <$> paths),
     concat (package_errors W <$> paths)).
Proof.
  unfold getFunctions. rewrite getObjects_spec. f_equal.
  assert (forall objects funcs,
    range_slice objects (fun _ obj funcs => getFunctions_body obj funcs) funcs
    = funcs ++ concat (object_functions <$> objects)) as H.
  { intros objects funcs.
    rewrite <- (range_slice_gather object_functions). unfold range_slice.
    generalize 0. revert funcs.
    induction objects as [|obj objects IH]; intros funcs k; simpl; [done|].
    by rewrite getFunctions_body_spec, IH. }
  rewrite H. simpl. rewrite concat_fmap_concat, <- list_fmap_compose. done.
Qed.

(** A package that fails to load contributes one error and no function;
    one that loads contributes no error. *)
Lemma package_error_or_functions (W : World) (path : string) :
  (exists err, loadPackage W path = inl err
     /\ package_errors W path = [err] /\ package_functions W path = [])
  \/ ((exists pkg, loadPackage W path = inr pkg) /\ package_errors W path = []).
Proof.
  unfold package_errors, package_functions, package_objects.
  destruct (loadPackage W path) as [err|pkg]; [left|right]; eauto.
Qed.

(** ** The reporter: [listErrors] and the report *)

Lemma string_concat_empty_cons (x : string) (xs : list string) :
  String.concat "" (x :: xs) = x +:+ String.concat "" xs.
Proof. destruct xs; simpl; [by rewrite string_app_nil_r|done]. Qed.

Lemma range_slice_write {A : Type} (f : A -> string) (xs : list A)
    (out : string) :
  range_slice xs (fun _ x out => out +:+ f x) out
  = out +:+ String.concat "" (f <$> xs).
Proof.
  unfold range_slice. generalize 0. revert out.
  induction xs as [|x xs IH]; intros out k.
  - simpl. by rewrite string_app_nil_r.
  - rewrite fmap_cons, string_concat_empty_cons. simpl.
    by rewrite IH, string_app_assoc.
Qed.

(** [listErrors] writes every error, followed by a newline, in the order
    of the list. *)
Lemma listErrors_spec (errors : list string) :
  listErrors errors = String.concat "" (Println <$> errors).
Proof. unfold listErrors. by rewrite range_slice_write. Qed.

(** The report is one block per key, in the order of the keys. *)
Lemma printReport_spec (keys : list string)
    (signatures : gmap string (list string)) :
  printReport keys signatures
  = String.concat ""
      ((fun path => spec_block path (default [] (signatures !! path))) <$> keys).
Proof.
  assert (forall (out : string) (k : nat),
    range_from k keys
      (fun _ path out =>
         let sigs := default [] (signatures !! path) in
         let out := out +:+ Println (path +:+ ":") in
         let out :=
           range_slice sigs (fun _ sig out => out +:+ Println (tab +:+ sig)) out in
         out +:+ Println "") out
    = out +:+ String.concat ""
        ((fun path => spec_block path (default [] (signatures !! path))) <$> keys))
    as H.
  { induction keys as [|path keys IH]; intros out k.
    - simpl. by rewrite string_app_nil_r.
    - rewrite fmap_cons, string_concat_empty_cons. cbn [range_from].
      rewrite IH, range_slice_write. unfold spec_block.
      by rewrite !string_app_assoc. }
  exact (H "" 0).
Qed.

(** ** The map of signatures *)

Lemma collect_snoc (fl : Flags) (funcs : list function) (fnc : function) :
  collect fl (funcs ++ [fnc]) = collect_body fl fnc (collect fl funcs).
Proof.
  unfold collect, range_slice.
  rewrite !(range_from_fold 0 _ (collect_body fl)). by rewrite fold_left_app.
Qed.

Lemma collect_body_lookup (fl : Flags) (fnc : function)
    (m : gmap string (list string)) (path : string) :
  collect_body fl fnc m !! path
  = if decide (reported fl fnc = true /\ Pkg fnc = path)
    then Some (default [] (m !! path) ++ [line_of fnc])
    else m !! path.
Proof.
  unfold collect_body, reported, line_of.
  destruct (Func_Type (fn fnc)) as [sig|].
  - destruct (keep (and fl) (arguments fl) (returns fl) sig) eqn:E.
    + destruct (decide (Pkg fnc = path)) as [<-|Hne].
      * rewrite lookup_insert_eq. by rewrite decide_True.
      * rewrite lookup_insert_ne by done. rewrite decide_False; [done|tauto].
    + rewrite decide_False; [done|]. intros [? _]. done.
  - rewrite decide_False; [done|]. intros [? _]. done.
Qed.

Lemma group_of_snoc (fl : Flags) (funcs : list function) (fnc : function)
    (path : string) :
  group_of fl (funcs ++ [fnc]) path
  = group_of fl funcs path
    ++ (if decide (reported fl fnc = true /\ Pkg fnc = path)
        then [line_of fnc] else []).
Proof.
  unfold group_of. rewrite filter_app, fmap_app. f_equal.
  rewrite filter_cons, filter_nil. by case_decide.
Qed.

(** The entry of a package in the map: the lines of its reported
    declarations in the order met, and no entry when there is none. *)
Lemma collect_lookup (fl : Flags) (funcs : list function) (path : string) :
  collect fl funcs !! path
  = match group_of fl funcs path with
    | [] => None
    | l => Some l
    end.
Proof.
  induction funcs as [|fnc funcs IH] using rev_ind; [done|].
  rewrite collect_snoc, collect_body_lookup, group_of_snoc, IH.
  case_decide.
  - destruct (group_of fl funcs path); done.
  - by rewrite app_nil_r.
Qed.

Lemma collect_lookup_default (fl : Flags) (funcs : list function)
    (path : string) :
  default [] (collect fl funcs !! path) = group_of fl funcs path.
Proof. rewrite collect_lookup. by destruct (group_of fl funcs path). Qed.

Lemma collect_is_key (fl : Flags) (funcs : list function) (path : string) :
  is_Some (collect fl funcs !! path)
  <-> exists fnc, fnc ∈ funcs /\ reported fl fnc = true /\ Pkg fnc = path.
Proof.
  rewrite collect_lookup. unfold group_of.
  destruct (filter _ funcs) as [|fnc l] eqn:E; csimpl.
  - split; [by intros [? ?]|]. intros (fnc & Hin & Hrep & Hpkg).
    assert (fnc ∈ filter (fun fnc => reported fl fnc = true /\ Pkg fnc = path) funcs)
      as Hf by (apply list_elem_of_filter; auto).
    rewrite E in Hf. by apply not_elem_of_nil in Hf.
  - split; [|by eauto]. intros _.
    assert (fnc ∈ filter (fun fnc => reported fl fnc = true /\ Pkg fnc = path) funcs)
      as Hf by (rewrite E; left).
    apply list_elem_of_filter in Hf as [[? ?] ?]. eauto.
Qed.

(** ** Sorting the keys *)

(** A sorted arrangement of a slice is what [sort_Strings] returns. *)
Lemma sort_Strings_unique (a l : list string) :
  Sorted String.le l -> l ≡ₚ a -> l = sort_Strings a.
Proof.
  intros Hs Hp. apply (Sorted_unique String.le); [done| |].
  - apply Sorted_merge_sort; apply _.
  - unfold sort_Strings. by rewrite merge_sort_Permutation.
Qed.

Lemma sort_Strings_Permutation (a b : list string) :
  a ≡ₚ b -> sort_Strings a = sort_Strings b.
Proof.
  intros Hp. apply sort_Strings_unique.
  - apply Sorted_merge_sort; apply _.
  - unfold sort_Strings. by rewrite merge_sort_Permutation.
Qed.

Lemma sortedKeys_unfold (order : gmap string (list string) -> list string)
    (m : gmap string (list string)) :
  sortedKeys order m = sort_Strings (order m).
Proof. unfold sortedKeys. by rewrite range_slice_snoc. Qed.

(** The sorted keys do not depend on the order in which [range] visits the
    map. *)
Lemma sortedKeys_order_irrelevant
    (order1 order2 : gmap string (list string) -> list string)
    (m : gmap string (list string)) :
  range_order_ok order1 -> range_order_ok order2 ->
  sortedKeys order1 m = sortedKeys order2 m.
Proof.
  intros H1 H2. rewrite !sortedKeys_unfold. apply sort_Strings_Permutation.
  by rewrite (H1 m), (H2 m).
Qed.

Lemma sortedKeys_Permutation (order : gmap string (list string) -> list string)
    (m : gmap string (list string)) :
  range_order_ok order -> sortedKeys order m ≡ₚ (map_to_list m).*1.
Proof.
  intros H. rewrite sortedKeys_unfold. unfold sort_Strings.
  by rewrite merge_sort_Permutation.
Qed.

Lemma sortedKeys_elem_of (order : gmap string (list string) -> list string)
    (m : gmap string (list string)) (path : string) :
  range_order_ok order -> path ∈ sortedKeys order m <-> is_Some (m !! path).
Proof.
  intros H. rewrite (sortedKeys_Permutation order m H).
  rewrite list_elem_of_fmap. split.
  - intros ([k v] & -> & Hin). apply elem_of_map_to_list in Hin. eauto.
  - intros [v Hv]. exists (path, v). split; [done|].
    by apply elem_of_map_to_list.
Qed.

Lemma sortedKeys_NoDup (order : gmap string (list string) -> list string)
    (m : gmap string (list string)) :
  range_order_ok order -> NoDup (sortedKeys order m).
Proof.
  intros H. rewrite (sortedKeys_Permutation order m H).
  apply NoDup_fst_map_to_list.
Qed.

Lemma StronglySorted_strict (l : list string) :
  StronglySorted String.le l -> NoDup l -> StronglySorted (strict String.le) l.
Proof.
  induction 1 as [|x l Hl IH Hx]; intros Hnd; [constructor|].
  apply NoDup_cons in Hnd as [Hnotin Hnd]. constructor; [by apply IH|].
  apply Forall_forall. intros y Hy. split.
  - rewrite Forall_forall in Hx. by apply Hx.
  - intros Hyx. rewrite Forall_forall in Hx.
    assert (x = y) as -> by (apply (anti_symm String.le); auto).
    done.
Qed.

Lemma sortedKeys_ascending (order : gmap string (list string) -> list string)
    (m : gmap string (list string)) :
  range_order_ok order -> StronglySorted (strict String.le) (sortedKeys order m).
Proof.
  intros H. apply StronglySorted_strict; [|by apply sortedKeys_NoDup].
  rewrite sortedKeys_unfold. apply StronglySorted_merge_sort; apply _.
Qed.

(** ** The whole run *)

(** A run that gets past the two checks of the command line. *)
Lemma main_run (W : World) (order : gmap string (list string) -> list string)
    (fl : Flags) :
  packages fl <> [] -> arguments fl <> [] \/ returns fl <> [] ->
  let paths := gotool_ImportPaths W (packages fl) in
  let errs := concat (package_errors W <$> paths) in
  let funcs := concat (package_functions W <$> paths) in
  main W order fl
  = mkOutcome
      (String.concat "" (Println <$> errs)
       +:+ printReport (sortedKeys order (collect fl funcs)) (collect fl funcs))
      (fallbackBanner W) 0.
Proof.
  intros Hp Ht. unfold main.
  destruct (packages fl) as [|p ps] eqn:Ep; [done|]. simpl.
  assert ((length (arguments fl) + length (returns fl) =? 0)%nat = false) as ->.
  { apply Nat.eqb_neq.
    destruct (arguments fl), (returns fl); simpl; try lia.
    destruct Ht; done. }
  rewrite getFunctions_spec, listErrors_spec. done.
Qed.

(** What a run that gets past the checks writes: the errors of the
    packages go through [listErrors], each followed by a newline, to
    standard output, in the order in which the packages are met and ahead
    of the report; standard error receives the fallback banner only.  A
    package that fails contributes one error and no declaration, and the
    declarations of all other packages are extracted and reported. *)
Lemma main_errors_and_report
    (W : World) (order : gmap string (list string) -> list string) (fl : Flags) :
  packages fl <> [] -> arguments fl <> [] \/ returns fl <> [] ->
  let paths := gotool_ImportPaths W (packages fl) in
  let errs := concat (package_errors W <$> paths) in
  let funcs := concat (package_functions W <$> paths) in
  getFunctions W paths = (funcs, errs)
  /\ Stdout (main W order fl)
     = String.concat "" (Println <$> errs)
       +:+ printReport (sortedKeys order (collect fl funcs)) (collect fl funcs)
  /\ Stderr (main W order fl) = fallbackBanner W
  /\ Forall
       (fun path =>
          package_errors W path = []
          \/ exists err, package_errors W path = [err]
                         /\ package_functions W path = []) paths.
Proof.
  intros Hp Ht paths errs funcs.
  split; [apply getFunctions_spec|].
  rewrite (main_run W order fl Hp Ht). simpl. split; [done|]. split; [done|].
  apply Forall_forall. intros path _.
  destruct (package_error_or_functions W path)
    as [(err & _ & He & Hf)|[_ He]]; eauto.
Qed.

(** C3 (the code at a failing input): package [nope] cannot be imported.
    Its error is the first line of standard output, and standard error
    stays empty, although the usage messages and the fallback banner of
    [main] are written to standard error.  The run goes on: the two other
    packages are reported and the status is 0. *)
Theorem C3_import_error_is_written_to_stdout :
  let fl := mkFlags ["lib/b"; "nope"; "lib/a"] ["string"] ["error"] false in
  let o := main sample_world order_forward fl in
  (getFunctions sample_world (gotool_ImportPaths sample_world (packages fl))).2
  = ["Couldn't import nope: cannot find package"]
  /\ Stderr o = ""
  /\ Stdout o
     = Println "Couldn't import nope: cannot find package"
       +:+ Println "lib/a:"
       +:+ Println (tab +:+ "Parse(s string) (int, error)")
       +:+ Println ""
       +:+ Println "lib/b:"
       +:+ Println (tab +:+ "(f *File) Close() (error)")
       +:+ Println (tab +:+ "Open(name string) (*File, error)")
       +:+ Println ""
  /\ ExitCode o = 0%Z.
Proof. vm_compute. repeat split; reflexivity. Qed.

(** The error of a package without Go files names the package. *)
Lemma no_files_error_text (W : World) (path : string) (buildPkg : BuildPackage) :
  build_Import W path = inr buildPkg ->
  Goroot buildPkg = false -> GoFiles buildPkg = [] ->
  package_errors W path = ["Couldn't parse " +:+ path +:+ ": No (non cgo) Go files"].
Proof.
  intros Hb Hg Hf. unfold package_errors, loadPackage.
  rewrite Hb, Hg, Hf. reflexivity.
Qed.

(** The error of a package whose first file does not parse is made of the
    parser's error alone: the format has two operands and is given one, so
    the path is left out and the second operand is reported missing. *)
Lemma parse_failure_error_text (W : World) (path : string)
    (buildPkg : BuildPackage) (file : string) (files : list string)
    (perr : string) :
  build_Import W path = inr buildPkg ->
  Goroot buildPkg = false -> GoFiles buildPkg = file :: files ->
  parser_ParseFile W (filepath_Join W (Dir buildPkg) file) = inl perr ->
  package_errors W path
  = ["Couldn't parse could not parse: " +:+ perr +:+ ": %!s(MISSING)"].
Proof.
  intros Hb Hg Hf Hp. unfold package_errors, loadPackage.
  rewrite Hb, Hg, Hf. simpl. unfold parseFile. rewrite Hp. simpl.
  by rewrite !string_app_nil_r.
Qed.

(** C4 (the code at the failing input): package [./pkg] is skipped because
    its file does not parse.  The one error line holds the parser's error
    and the mark of a missing operand, not the path of the package; nowhere
    in the output of the run is the path mentioned.  The package after it
    is still processed and reported. *)
Theorem C4_parse_failure_line_omits_path :
  let fl := mkFlags ["./pkg"; "lib/a"] ["string"] [] false in
  let line :=
    "Couldn't parse could not parse: pkg/a.go:5:1: comment not terminated: %!s(MISSING)" in
  getFunctions sample_world ["./pkg"; "lib/a"]
  = (package_functions sample_world "lib/a", [line])
  /\ package_functions sample_world "lib/a" <> []
  /\ strings_Contains line "./pkg" = false
  /\ strings_Contains line "pkg/a.go:5:1: comment not terminated" = true
  /\ Stdout (main sample_world order_forward fl)
     = Println line
       +:+ Println "lib/a:"
       +:+ Println (tab +:+ "Parse(s string) (int, error)")
       +:+ Println ""
  /\ strings_Contains (Stdout (main sample_world order_forward fl)) "./pkg"
     = false
  /\ Stderr (main sample_world order_forward fl) = "".
Proof. vm_compute. repeat split; (reflexivity || discriminate). Qed.

(** C5: the run ends with status 1 exactly when no package is given or
    neither filter has an entry, and then it has written a message and the
    usage text to standard error and nothing to standard output; every
    other run ends with status 0, whatever happens to the packages. *)
Theorem C5_exit_status
    (W : World) (order : gmap string (list string) -> list string) (fl : Flags) :
  let o := main W order fl in
  (ExitCode o = 1%Z
   <-> packages fl = [] \/ (arguments fl = [] /\ returns fl = []))
  /\ (ExitCode o = 0%Z
      <-> ~ (packages fl = [] \/ (arguments fl = [] /\ returns fl = [])))
  /\ (if (ExitCode o =? 1)%Z
      then Stdout o = ""
           /\ exists msg, Stderr o = Println msg +:+ flag_Usage W
      else True).
Proof.
  destruct (decide (packages fl = [])) as [Hp|Hp].
  { unfold main. rewrite Hp. simpl.
    split; [split; [by left|done]|].
    split; [split; [done|intros H; exfalso; apply H; by left]|].
    split; [done|]. by exists "Need to specify at least one package to check.". }
  destruct (decide (arguments fl = [] /\ returns fl = [])) as [[Ha Hr]|Ht].
  { unfold main. destruct (packages fl) as [|p ps]; [done|].
    rewrite Ha, Hr. simpl.
    split; [split; [by right|done]|].
    split; [split; [done|intros H; exfalso; apply H; by right]|].
    split; [done|]. by exists "Need at least one type to search for.". }
  assert (arguments fl <> [] \/ returns fl <> []) as Ht'.
  { destruct (arguments fl), (returns fl); auto. }
  rewrite (main_run W order fl Hp Ht'). simpl.
  split; [split; [done|tauto]|].
  split; [split; [tauto|done]|done].
Qed.

Lemma range_order_elem_of (order : gmap string (list string) -> list string)
    (m : gmap string (list string)) (path : string) :
  range_order_ok order -> path ∈ order m <-> is_Some (m !! path).
Proof.
  intros H. rewrite <- (sortedKeys_elem_of order m path H).
  rewrite sortedKeys_unfold. unfold sort_Strings.
  by rewrite merge_sort_Permutation.
Qed.

Lemma range_order_NoDup (order : gmap string (list string) -> list string)
    (m : gmap string (list string)) :
  range_order_ok order -> NoDup (order m).
Proof. intros H. rewrite (H m). apply NoDup_fst_map_to_list. Qed.

(** C6: the keys the report is printed from hold every package with a
    reported declaration once, in strictly ascending order; they are the
    same whatever order the declarations were met in and whatever order the
    map is traversed in; and the report is one block per key whose lines are
    the reported declarations of that package in the order met. *)
Theorem C6_groups_sorted_and_stable
    (fl : Flags) (funcs funcs' : list function)
    (order order' : gmap string (list string) -> list string) :
  range_order_ok order -> range_order_ok order' -> funcs' ≡ₚ funcs ->
  let m := collect fl funcs in
  let keys := sortedKeys order m in
  NoDup keys
  /\ StronglySorted (strict String.le) keys
  /\ (forall path,
        path ∈ keys
        <-> exists fnc, fnc ∈ funcs /\ reported fl fnc = true /\ Pkg fnc = path)
  /\ sortedKeys order' (collect fl funcs') = keys
  /\ printReport keys m
     = String.concat ""
         ((fun path => spec_block path (group_of fl funcs path)) <$> keys).
Proof.
  intros Hok Hok' Hperm m keys.
  split; [by apply sortedKeys_NoDup|].
  split; [by apply sortedKeys_ascending|].
  split.
  { intros path. unfold keys. rewrite (sortedKeys_elem_of order m path Hok).
    apply collect_is_key. }
  split.
  { unfold keys. rewrite (sortedKeys_unfold order m).
    apply sort_Strings_unique.
    - rewrite sortedKeys_unfold. apply Sorted_merge_sort; apply _.
    - apply NoDup_Permutation.
      + by apply sortedKeys_NoDup.
      + by apply range_order_NoDup.
      + intros path.
        rewrite (sortedKeys_elem_of order' _ path Hok').
        rewrite (range_order_elem_of order m path Hok).
        unfold m. rewrite !collect_is_key.
        split; intros (fnc & Hin & H); exists fnc; split; try done.
        * by rewrite <- Hperm.
        * by rewrite Hperm. }
  rewrite printReport_spec. f_equal. apply list_fmap_ext.
  intros i path _. unfold m. by rewrite collect_lookup_default.
Qed.

Lemma C6_groups_sorted_and_stable_witness :
  sortedKeys order_backward
    (collect sample_flags (getFunctions sample_world ["lib/a"; "lib/b"]).1)
  = sortedKeys order_forward
      (collect sample_flags (getFunctions sample_world ["lib/b"; "lib/a"]).1).
Proof.
  destruct (C6_groups_sorted_and_stable sample_flags
              (getFunctions sample_world ["lib/b"; "lib/a"]).1
              (getFunctions sample_world ["lib/a"; "lib/b"]).1
              order_forward order_backward) as (_ & _ & _ & H & _).
  - intros m. reflexivity.
  - intros m. unfold order_backward. apply reverse_Permutation.
  - vm_compute. apply (Permutation_app_comm [_] [_; _; _]).
  - exact H.
Defined.

(** C7 (the code at a failing input): a parameter named [x], the middle
    dot, [1] is displayed with its suffix, because the literal [noDot]
    searches for is not the middle dot; the line the claim asks for is
    [F(x int) ()]. *)
Theorem C7_middle_dot_suffix_not_stripped :
  noDot ("x" +:+ middle_dot +:+ "1") = "x" +:+ middle_dot +:+ "1"
  /\ signatureLine "F"
       (mkSignature None [mkVar ("x" +:+ middle_dot +:+ "1") "int"] [])
     = "F(x" +:+ middle_dot +:+ "1 int) ()"
  /\ signatureLine "F"
       (mkSignature None [mkVar ("x" +:+ middle_dot +:+ "1") "int"] [])
     <> "F(x int) ()"
  /\ noDot ("x" +:+ noDot_separator +:+ "1") = "x".
Proof. vm_compute. repeat split; (reflexivity || discriminate). Qed.

(** The example of the specification: method [Foo] on [*T], no parameter,
    one unnamed result of type [error]. *)
Example signatureLine_method_example :
  signatureLine "Foo" (mkSignature (Some (mkVar "t" "*T")) [] [mkVar "" "error"])
  = "(t *T) Foo() (error)".
Proof. reflexivity. Qed.

(** C8: the outcome of a run (standard output, standard error and exit
    status) is a function of the command line and of what the collaborators
    return; the one freedom the language leaves, the order in which the map
    of signatures is traversed, does not show in it. *)
Theorem C8_run_is_deterministic
    (W : World) (fl : Flags)
    (order1 order2 : gmap string (list string) -> list string) :
  range_order_ok order1 -> range_order_ok order2 ->
  main W order1 fl = main W order2 fl.
Proof.
  intros H1 H2. unfold main.
  destruct (length (packages fl) =? 0)%nat; [done|].
  destruct (length (arguments fl) + length (returns fl) =? 0)%nat; [done|].
  destruct (getFunctions W (gotool_ImportPaths W (packages fl))) as [funcs errs].
  by rewrite (sortedKeys_order_irrelevant order1 order2 _ H1 H2).
Qed.

Lemma C8_run_is_deterministic_witness :
  main sample_world order_forward sample_flags
  = main sample_world order_backward sample_flags.
Proof.
  apply C8_run_is_deterministic.
  - intros m. reflexivity.
  - intros m. unfold order_backward. apply reverse_Permutation.
Defined.

(** * Further properties of the program *)

(** ** Slices and [strings.Split] *)

Lemma substring_whole (r : string) :
  String.substring 0 (String.length r) r = r.
Proof. induction r as [|c r IH]; simpl; [done|]. by rewrite IH. Qed.

Lemma substring_skip (a r : string) (m : nat) :
  String.substring (String.length a) m (a +:+ r) = String.substring 0 m r.
Proof. induction a as [|c a IH]; simpl; [done|]. apply IH. Qed.

Lemma slice_to_app (a r : string) :
  slice_to (a +:+ r) (Z.of_nat (String.length a)) = a.
Proof. unfold slice_to. rewrite Nat2Z.id. apply substring_app_l. Qed.

Lemma slice_from_app (a r : string) :
  slice_from (a +:+ r) (Z.of_nat (String.length a)) = r.
Proof.
  unfold slice_from. rewrite Nat2Z.id, string_length_app, substring_skip.
  replace (String.length a + String.length r - String.length a)
    with (String.length r) by lia.
  apply substring_whole.
Qed.

Lemma strings_Index_spec (sep s : string) :
  (strings_Index s sep = (-1)%Z /\ ~ occurs_in sep s)
  \/ (exists a b, s = a +:+ sep +:+ b
        /\ strings_Index s sep = Z.of_nat (String.length a)
        /\ forall a' b', s = a' +:+ sep +:+ b' ->
             String.length a <= String.length a').
Proof.
  unfold strings_Index.
  destruct (strings_Index_from_spec sep s 0) as [H|(a & b & Hs & Hi & Hmin)];
    [by left|right].
  exists a, b. by rewrite Hi, Z.add_0_l.
Qed.

Lemma string_app_split (a u : string) :
  forall x v : string,
    a +:+ u = x +:+ v -> String.length a <= String.length x ->
    exists r, x = a +:+ r /\ u = r +:+ v.
Proof.
  induction a as [|c a IH]; intros x v Heq Hlen; simpl in *.
  - by exists x.
  - destruct x as [|d x]; simpl in *; [lia|].
    injection Heq as -> Heq.
    destruct (IH x v Heq) as (r & -> & ->); [lia|]. by exists r.
Qed.

Lemma first_occurrence_free (sep a b : string) :
  sep <> "" ->
  (forall a' b', a +:+ sep +:+ b = a' +:+ sep +:+ b' ->
     String.length a <= String.length a') ->
  ~ occurs_in sep a.
Proof.
  intros Hsep Hmin (a1 & b1 & ->).
  specialize (Hmin a1 (b1 +:+ sep +:+ b)).
  rewrite !string_app_assoc in Hmin. specialize (Hmin eq_refl).
  rewrite !string_length_app in Hmin.
  destruct sep; [done|]. simpl in Hmin. lia.
Qed.

(** A string that does not hold [sep], followed by an unbordered [sep]:
    the first occurrence is the one written. *)
Lemma strings_Index_at_boundary (sep x rest : string) :
  unbordered sep -> ~ occurs_in sep x ->
  strings_Index (x +:+ sep +:+ rest) sep = Z.of_nat (String.length x).
Proof.
  intros Hub Hfree.
  destruct (strings_Index_spec sep (x +:+ sep +:+ rest))
    as [[_ Hno]|(a & b & Hs & Hi & Hmin)].
  { exfalso. apply Hno. by exists x, rest. }
  rewrite Hi. f_equal.
  pose proof (Hmin x rest eq_refl) as Hle.
  symmetry in Hs.
  destruct (string_app_split a (sep +:+ b) x (sep +:+ rest) Hs Hle)
    as (r & Hx & Hr).
  destruct r as [|c r].
  { rewrite Hx. by rewrite string_app_nil_r. }
  exfalso.
  destruct (decide (String.length (String c r) < String.length sep)) as [Hlt|Hge].
  - by apply (Hub (String c r) b rest).
  - symmetry in Hr.
    destruct (string_app_split sep b (String c r) (sep +:+ rest)) as (r' & Hr' & _);
      [by symmetry|lia|].
    apply Hfree. exists a, r'. by rewrite Hx, Hr'.
Qed.

Lemma unbordered_single (c : ascii) : unbordered (String c "").
Proof. intros r u v Hr Hlen. destruct r; simpl in *; [done|lia]. Qed.

Lemma unbordered_noDot_separator : unbordered noDot_separator.
Proof.
  intros r u v Hr Hlen Heq. unfold noDot_separator in *.
  destruct r as [|c1 [|c2 [|c3 [|c4 r]]]]; simpl in *; try done; try lia;
    simplify_eq.
Qed.

Lemma genSplit_unfold (fuel : nat) (s sep : string) :
  genSplit fuel s sep
  = if (strings_Index s sep <? 0)%Z then [s]
    else match fuel with
         | 0 => [s]
         | S fuel' =>
             slice_to s (strings_Index s sep)
             :: genSplit fuel'
                  (slice_from s
                     (strings_Index s sep + Z.of_nat (String.length sep))%Z) sep
         end.
Proof. destruct fuel; reflexivity. Qed.

Lemma string_concat_cons (sep x : string) (l : list string) :
  l <> [] -> String.concat sep (x :: l) = x +:+ sep +:+ String.concat sep l.
Proof. destruct l; done. Qed.

Lemma genSplit_cut (fuel : nat) (a sep b : string) :
  strings_Index (a +:+ sep +:+ b) sep = Z.of_nat (String.length a) ->
  genSplit (S fuel) (a +:+ sep +:+ b) sep = a :: genSplit fuel b sep.
Proof.
  intros Hi. rewrite genSplit_unfold, Hi.
  destruct (Z.of_nat (String.length a) <? 0)%Z eqn:E; [lia|].
  rewrite slice_to_app. f_equal. f_equal.
  rewrite <- Nat2Z.inj_add, <- string_length_app, <- string_app_assoc.
  apply slice_from_app.
Qed.

Lemma genSplit_spec (sep : string) :
  sep <> "" ->
  forall (fuel : nat) (s : string),
    String.length s <= fuel ->
    genSplit fuel s sep <> []
    /\ String.concat sep (genSplit fuel s sep) = s
    /\ Forall (fun x => ~ occurs_in sep x) (genSplit fuel s sep).
Proof.
  intros Hsep. induction fuel as [|fuel IH]; intros s Hlen.
  - destruct s; [|simpl in Hlen; lia]. rewrite genSplit_unfold.
    destruct (strings_Index_spec sep "") as [[Hi Hno]|(a & b & Hs & _)].
    + rewrite Hi. simpl. repeat split; [done|]. by constructor.
    + destruct a; [|done]. destruct sep; done.
  - destruct (strings_Index_spec sep s) as [[Hi Hno]|(a & b & Hs & Hi & Hmin)].
    + rewrite genSplit_unfold, Hi. simpl. repeat split; [done|]. by constructor.
    + subst s. rewrite (genSplit_cut fuel a sep b Hi).
      rewrite !string_length_app in Hlen.
      destruct (IH b) as (Hne & Hcat & Hfree).
      { destruct sep; [done|]. simpl in Hlen. lia. }
      split; [done|]. split.
      * by rewrite string_concat_cons, Hcat.
      * constructor; [|done]. by apply (first_occurrence_free sep a b).
Qed.

Lemma genSplit_fuel (sep : string) :
  sep <> "" ->
  forall (fuel1 fuel2 : nat) (s : string),
    String.length s <= fuel1 -> String.length s <= fuel2 ->
    genSplit fuel1 s sep = genSplit fuel2 s sep.
Proof.
  intros Hsep. induction fuel1 as [|fuel1 IH]; intros fuel2 s H1 H2.
  - destruct s; [|simpl in H1; lia]. rewrite !genSplit_unfold.
    destruct (strings_Index_spec sep "") as [[Hi Hno]|(a & b & Hs & _)].
    + by rewrite Hi.
    + destruct a; [|done]. destruct sep; done.
  - destruct (strings_Index_spec sep s) as [[Hi Hno]|(a & b & Hs & Hi & Hmin)].
    + rewrite !genSplit_unfold, Hi. done.
    + subst s. rewrite !string_length_app in H1, H2.
      assert (String.length b < S fuel1 /\ String.length b < fuel2) as [Hb1 Hb2].
      { destruct sep; [done|]. simpl in H1, H2. lia. }
      destruct fuel2 as [|fuel2]; [lia|].
      rewrite !(genSplit_cut _ a sep b Hi). f_equal. apply IH; lia.
Qed.

Lemma strings_Split_Join (c : ascii) (l : list string) :
  l <> [] -> Forall (fun x => ~ occurs_in (String c "") x) l ->
  strings_Split (strings_Join l (String c "")) (String c "") = l.
Proof.
  unfold strings_Split, strings_Join.
  induction l as [|x l IH]; intros Hne Hfree; [done|].
  apply Forall_cons in Hfree as [Hx Hl].
  destruct l as [|y l].
  - simpl. rewrite genSplit_unfold.
    destruct (strings_Index_spec (String c "") x) as [[Hi _]|(a & b & Hs & _)].
    + by rewrite Hi.
    + exfalso. apply Hx. by exists a, b.
  - rewrite string_concat_cons by done.
    set (rest := String.concat (String c "") (y :: l)) in *.
    pose proof (strings_Index_at_boundary (String c "") x rest
                  (unbordered_single c) Hx) as Hi.
    rewrite !string_length_app. simpl String.length.
    rewrite Nat.add_succ_r. rewrite (genSplit_cut _ x (String c "") rest Hi).
    f_equal.
    rewrite (genSplit_fuel (String c "") ltac:(done) _ (String.length rest) rest)
      by lia.
    by apply IH.
Qed.

(** [strings_Contains] decides occurrence. *)
Lemma strings_Contains_occurs_in (s sep : string) :
  strings_Contains s sep = true <-> occurs_in sep s.
Proof.
  unfold strings_Contains.
  destruct (strings_Index_spec sep s) as [[Hi Hno]|(a & b & Hs & Hi & _)];
    rewrite Hi.
  - split; [done|]. intros H. by destruct Hno.
  - split; [|intros _; apply Z.leb_le; lia]. intros _. by exists a, b.
Qed.

Lemma strings_Contains_false (s sep : string) :
  strings_Contains s sep = false -> ~ occurs_in sep s.
Proof. intros H Ho. apply strings_Contains_occurs_in in Ho. congruence. Qed.

(** ** The list flags *)

(** X1: writing a list flag back after it was set gives the text it was set
    from: joining what [Set] split gives the value again. *)
Theorem X1_stringSlice_String_after_Set (val : string) :
  stringSlice_String (stringSlice_Set val) = val.
Proof.
  unfold stringSlice_String, stringSlice_Set, strings_Join, strings_Split.
  by destruct (genSplit_spec "," ltac:(done) (String.length val) val)
    as (_ & H & _).
Qed.

(** X2: a list flag that was set holds at least one entry, whatever the
    value (the empty value gives one empty entry), and no entry holds a
    comma. *)
Theorem X2_stringSlice_Set_entries (val : string) :
  stringSlice_Set val <> []
  /\ Forall (fun x => ~ occurs_in "," x) (stringSlice_Set val)
  /\ stringSlice_Set "" = [""].
Proof.
  unfold stringSlice_Set, strings_Split.
  destruct (genSplit_spec "," ltac:(done) (String.length val) val
              (Nat.le_refl _)) as (H1 & _ & H2).
  split; [done|]. split; [done|]. reflexivity.
Qed.

(** X3: a run whose package flag and one of whose filter flags were set, to
    any value at all, gets past both checks of the command line and ends
    with status 0: the checks only catch flags that were never given. *)
Theorem X3_flags_that_were_set_pass_the_checks
    (W : World) (order : gmap string (list string) -> list string)
    (pkgs val : string) (other : list string) (andMode : bool) :
  ExitCode (main W order
              (mkFlags (stringSlice_Set pkgs) (stringSlice_Set val) other andMode))
  = 0%Z
  /\ ExitCode (main W order
                 (mkFlags (stringSlice_Set pkgs) other (stringSlice_Set val) andMode))
     = 0%Z.
Proof.
  assert (forall v, stringSlice_Set v <> []) as Hne.
  { intros v. unfold stringSlice_Set, strings_Split.
    by destruct (genSplit_spec "," ltac:(done) (String.length v) v) as (H & _). }
  split.
  - rewrite main_run; [done|apply Hne|left; apply Hne].
  - rewrite main_run; [done|apply Hne|right; apply Hne].
Qed.

(** X4: setting a list flag from the text of a list gives that list back,
    provided the list is not empty and no entry holds a comma. *)
Theorem X4_stringSlice_Set_after_String (l : stringSlice) :
  l <> [] -> Forall (fun x => ~ occurs_in "," x) l ->
  stringSlice_Set (stringSlice_String l) = l.
Proof. apply (strings_Split_Join ","%char). Qed.

Lemma X4_stringSlice_Set_after_String_witness :
  stringSlice_Set (stringSlice_String ["io.Writer"; ""; "[]byte"])
  = ["io.Writer"; ""; "[]byte"].
Proof.
  apply X4_stringSlice_Set_after_String.
  - discriminate.
  - repeat constructor; apply strings_Contains_false; reflexivity.
Defined.

(** ** [noDot] *)

Lemma noDot_free (s : string) : ~ occurs_in noDot_separator (noDot s).
Proof.
  destruct (noDot_spec s) as [[Hno ->]|(b & Hs & Hmin)]; [done|].
  apply (first_occurrence_free noDot_separator (noDot s) b); [done|].
  by rewrite <- Hs.
Qed.

(** X5: what [noDot] returns is the beginning of the name, holds no
    separator, and is left alone by a second [noDot]. *)
Theorem X5_noDot_prefix_free_idempotent (s : string) :
  (exists rest, s = noDot s +:+ rest)
  /\ strings_Contains (noDot s) noDot_separator = false
  /\ noDot (noDot s) = noDot s.
Proof.
  split; [|split].
  - destruct (noDot_spec s) as [[_ ->]|(b & Hs & _)].
    + exists "". by rewrite string_app_nil_r.
    + by exists (noDot_separator +:+ b).
  - destruct (strings_Contains (noDot s) noDot_separator) eqn:E; [|done].
    apply strings_Contains_occurs_in in E. by apply noDot_free in E.
  - destruct (noDot_spec (noDot s)) as [[_ H]|(b & Hs & _)]; [done|].
    exfalso. apply (noDot_free s). by exists (noDot (noDot s)), b.
Qed.

(** X6: a name that holds no separator, followed by the separator and
    anything, is cut back to that name. *)
Theorem X6_noDot_cuts_at_separator (name rest : string) :
  strings_Contains name noDot_separator = false ->
  noDot (name +:+ noDot_separator +:+ rest) = name.
Proof.
  intros Hfree. apply strings_Contains_false in Hfree.
  unfold noDot.
  rewrite (strings_Index_at_boundary noDot_separator name rest
             unbordered_noDot_separator Hfree).
  destruct (Z.of_nat (String.length name) =? -1)%Z eqn:E;
    [apply Z.eqb_eq in E; lia|].
  apply slice_to_app.
Qed.

Lemma X6_noDot_cuts_at_separator_witness :
  noDot ("err" +:+ noDot_separator +:+ "2") = "err".
Proof. apply X6_noDot_cuts_at_separator. reflexivity. Defined.

(** ** The filter *)

Lemma checkTypes_nil (args : Tuple) : checkTypes args [] = (false, true).
Proof. rewrite checkTypes_closed. simpl. f_equal. by induction args. Qed.

(** X7: a declaration without parameters (or without results) matches no
    entry: [any] is false, and [all] holds only for the empty filter. *)
Theorem X7_checkTypes_empty_tuple (types : list string) :
  (checkTypes [] types).1 = false
  /\ ((checkTypes [] types).2 = true <-> types = []).
Proof.
  rewrite checkTypes_closed. simpl. split; [done|].
  destruct types; simpl; split; done.
Qed.

Lemma checkTypes_all_any (args : Tuple) (types : list string) :
  types <> [] ->
  (checkTypes args types).2 = true -> (checkTypes args types).1 = true.
Proof.
  intros Hne. rewrite checkTypes_all, checkTypes_any.
  destruct types as [|t types]; [done|]. intros Hcov.
  destruct (Hcov t) as (v & Hv & Ht); [left|].
  exists v, t. split; [done|]. split; [left|done].
Qed.

(** X8: when a filter with at least one entry is covered, some parameter
    matched: [all] implies [any] unless the filter is empty. *)
Theorem X8_checkTypes_all_implies_any (args : Tuple) (types : list string) :
  types <> [] ->
  (checkTypes args types).2 = true -> (checkTypes args types).1 = true.
Proof. apply checkTypes_all_any. Qed.

Lemma X8_checkTypes_all_implies_any_witness :
  (checkTypes [mkVar "s" "string"; mkVar "n" "int"] ["int"; "string"]).1 = true.
Proof.
  apply X8_checkTypes_all_implies_any.
  - discriminate.
  - reflexivity.
Defined.

(** X9: the two results of [checkTypes] depend only on which type strings
    occur among the parameters and which entries occur in the filter: order,
    repetition and parameter names change nothing. *)
Theorem X9_checkTypes_depends_on_sets
    (args args' : Tuple) (types types' : list string) :
  (forall t, t ∈ Type_String <$> args <-> t ∈ Type_String <$> args') ->
  (forall t, t ∈ types <-> t ∈ types') ->
  checkTypes args types = checkTypes args' types'.
Proof.
  intros Ha Ht.
  rewrite (surjective_pairing (checkTypes args types)).
  rewrite (surjective_pairing (checkTypes args' types')).
  f_equal; apply bool_eq_iff.
  - rewrite !checkTypes_any, !spec_any_match_types.
    split; intros (t & H1 & H2); exists t; split.
    + by apply Ha.
    + by apply Ht.
    + by apply Ha.
    + by apply Ht.
  - rewrite !checkTypes_all, !spec_covered_types.
    split; intros H t Hin.
    + apply Ha, H, Ht, Hin.
    + apply Ha, H, Ht, Hin.
Qed.

Lemma X9_checkTypes_depends_on_sets_witness :
  checkTypes [mkVar "a" "int"; mkVar "b" "string"; mkVar "c" "int"]
    ["string"; "int"; "string"]
  = checkTypes [mkVar "" "string"; mkVar "" "int"] ["int"; "string"].
Proof.
  apply X9_checkTypes_depends_on_sets.
  - intros t. simpl. rewrite !elem_of_cons. tauto.
  - intros t. rewrite !elem_of_cons. tauto.
Defined.

(** X10: in AND mode removing entries from the filters never loses a match:
    a declaration kept with the larger filters is kept with the smaller. *)
Theorem X10_and_mode_antitone
    (sig : Signature) (A A' R R' : list string) :
  A ⊆ A' -> R ⊆ R' ->
  keep true A' R' sig = true -> keep true A R sig = true.
Proof.
  intros HA HR. rewrite !keep_and. intros [H1 H2].
  split; intros t Ht; [apply H1, HA, Ht|apply H2, HR, Ht].
Qed.

Lemma X10_and_mode_antitone_witness :
  keep true ["int"] []
    (mkSignature None [mkVar "n" "int"; mkVar "s" "string"] [mkVar "" "error"])
  = true.
Proof.
  apply (X10_and_mode_antitone _ _ ["string"; "int"] _ ["error"]).
  - intros x Hx. apply elem_of_cons. right. exact Hx.
  - intros x Hx. inversion Hx.
  - reflexivity.
Defined.

(** X11: whatever AND mode keeps, OR mode keeps too, as soon as one of the
    filters has an entry (which [main] insists on). *)
Theorem X11_and_mode_within_or_mode (sig : Signature) (A R : list string) :
  A <> [] \/ R <> [] ->
  keep true A R sig = true -> keep false A R sig = true.
Proof.
  intros Hne. rewrite !keep_unfold. simpl.
  rewrite orb_false_r, andb_true_iff, orb_true_iff. intros [HA HR].
  destruct Hne as [Hne|Hne]; [left|right];
    by apply checkTypes_all_any.
Qed.

Lemma X11_and_mode_within_or_mode_witness :
  keep false ["string"] ["string"]
    (mkSignature None [mkVar "s" "string"; mkVar "n" "int"] [mkVar "" "string"])
  = true.
Proof.
  apply X11_and_mode_within_or_mode.
  - left. discriminate.
  - reflexivity.
Defined.

(** X12: further parameters or results never lose a match, in either mode:
    a declaration stays kept when its tuples gain entries. *)
Theorem X12_keep_monotone_in_signature
    (andMode : bool) (sig sig' : Signature) (A R : list string) :
  Params sig ⊆ Params sig' -> Results sig ⊆ Results sig' ->
  keep andMode A R sig = true -> keep andMode A R sig' = true.
Proof.
  intros HP HR. destruct andMode.
  - rewrite !keep_and. intros [H1 H2]. split; intros t Ht.
    + destruct (H1 t Ht) as (v & Hv & E). exists v. split; [by apply HP|done].
    + destruct (H2 t Ht) as (v & Hv & E). exists v. split; [by apply HR|done].
  - rewrite !keep_or.
    intros [(v & t & Hv & Ht & E)|(v & t & Hv & Ht & E)]; [left|right];
      exists v, t; auto.
Qed.

Lemma X12_keep_monotone_in_signature_witness :
  keep true ["int"] ["error"]
    (mkSignature (Some (mkVar "t" "T"))
       [mkVar "s" "string"; mkVar "n" "int"] [mkVar "" "error"])
  = true.
Proof.
  apply (X12_keep_monotone_in_signature true
           (mkSignature None [mkVar "n" "int"] [mkVar "" "error"])).
  - intros x Hx. apply elem_of_cons. right. exact Hx.
  - intros x Hx. exact Hx.
  - reflexivity.
Defined.

(** X13: a filter that was not given does not take part: without return
    types the parameters alone decide, without argument types the results
    alone, in OR mode by [any] and in AND mode by [all]. *)
Theorem X13_absent_filter_is_neutral (sig : Signature) (A R : list string) :
  keep false A [] sig = (checkTypes (Params sig) A).1
  /\ keep true A [] sig = (checkTypes (Params sig) A).2
  /\ keep false [] R sig = (checkTypes (Results sig) R).1
  /\ keep true [] R sig = (checkTypes (Results sig) R).2.
Proof.
  rewrite !keep_unfold, !checkTypes_nil. simpl.
  by rewrite !orb_false_r, !andb_true_r.
Qed.

(** ** The formatter *)

Lemma string_concat_app (sep : string) (l1 l2 : list string) :
  l1 <> [] -> l2 <> [] ->
  String.concat sep (l1 ++ l2)
  = String.concat sep l1 +:+ sep +:+ String.concat sep l2.
Proof.
  intros H1 H2. induction l1 as [|x l1 IH]; [done|].
  destruct l1 as [|y l1].
  - simpl app. by rewrite string_concat_cons.
  - rewrite <- app_comm_cons, !string_concat_cons by done.
    rewrite IH by done. by rewrite !string_app_assoc.
Qed.

(** X14: the text of a parameter list made of two parts is the texts of
    the parts with a comma and a space between them. *)
Theorem X14_argsToString_app (args1 args2 : Tuple) :
  args1 <> [] -> args2 <> [] ->
  argsToString (args1 ++ args2)
  = argsToString args1 +:+ ", " +:+ argsToString args2.
Proof.
  intros H1 H2. rewrite !argsToString_spec, fmap_app.
  apply string_concat_app; by destruct args1, args2.
Qed.

Lemma X14_argsToString_app_witness :
  argsToString [mkVar "w" "io.Writer"; mkVar "a" "...interface{}"]
  = argsToString [mkVar "w" "io.Writer"] +:+ ", "
    +:+ argsToString [mkVar "a" "...interface{}"].
Proof.
  apply (X14_argsToString_app [mkVar "w" "io.Writer"]
           [mkVar "a" "...interface{}"]); discriminate.
Defined.

(** X15: a tuple whose entries have no names is displayed as its types
    alone, joined by a comma and a space; the empty tuple as nothing. *)
Theorem X15_argsToString_unnamed (args : Tuple) :
  Forall (fun v => Var_Name v = "") args ->
  argsToString args = String.concat ", " (Type_String <$> args).
Proof.
  intros H. rewrite argsToString_spec. f_equal.
  induction H as [|v args Hv _ IH]; [done|].
  rewrite !fmap_cons, IH. f_equal.
  unfold spec_render_var. by rewrite Hv.
Qed.

Lemma X15_argsToString_unnamed_witness :
  argsToString [mkVar "" "*File"; mkVar "" "error"] = "*File, error".
Proof.
  apply (X15_argsToString_unnamed [mkVar "" "*File"; mkVar "" "error"]).
  repeat constructor.
Defined.

(** ** The extractor *)

(** X16: the files of a package are parsed in order up to the first one
    that fails; its error is the result, whatever files come after it. *)
Theorem X16_parseFiles_stops_at_first_failure
    (W : World) (dir : string) (files1 : list string) (file : string)
    (files2 : list string) (astFiles : list ast_File) (perr : string) :
  Forall (fun f => exists a, parser_ParseFile W (filepath_Join W dir f) = inr a)
    files1 ->
  parser_ParseFile W (filepath_Join W dir file) = inl perr ->
  parseFiles W dir (files1 ++ file :: files2) astFiles
  = inl ("Couldn't parse could not parse: " +:+ perr +:+ ": %!s(MISSING)").
Proof.
  intros Hok Hfail. revert astFiles.
  induction Hok as [|f files1 [a Ha] _ IH]; intros astFiles; simpl.
  - unfold parseFile. rewrite Hfail. simpl. by rewrite !string_app_nil_r.
  - unfold parseFile at 1. rewrite Ha. apply IH.
Qed.

Lemma X16_parseFiles_stops_at_first_failure_witness :
  parseFiles sample_world "pkg" ["b.go"; "a.go"; "c.go"] []
  = inl "Couldn't parse could not parse: pkg/a.go:5:1: comment not terminated: %!s(MISSING)".
Proof.
  apply (X16_parseFiles_stops_at_first_failure sample_world "pkg" ["b.go"]
           "a.go" ["c.go"] [] "pkg/a.go:5:1: comment not terminated").
  - repeat constructor. by exists (AstFile "pkg/b.go").
  - reflexivity.
Defined.

(** X17: the files of a package are all parsed exactly when each of them
    parses, and then the parsed files are added in the order of the file
    names. *)
Theorem X17_parseFiles_succeeds_iff_all_parse
    (W : World) (dir : string) (files : list string)
    (astFiles result : list ast_File) :
  parseFiles W dir files astFiles = inr result
  <-> exists parsed,
        result = astFiles ++ parsed
        /\ Forall2
             (fun f a => parser_ParseFile W (filepath_Join W dir f) = inr a)
             files parsed.
Proof.
  revert astFiles. induction files as [|f files IH]; intros astFiles; simpl.
  - split.
    + intros [= <-]. exists []. by rewrite app_nil_r.
    + intros (parsed & -> & H). inversion H. by rewrite app_nil_r.
  - unfold parseFile.
    destruct (parser_ParseFile W (filepath_Join W dir f)) as [err|a] eqn:E.
    + split; [done|]. intros (parsed & _ & H). inversion H. congruence.
    + rewrite IH. split.
      * intros (parsed & -> & H). exists (a :: parsed).
        split; [by rewrite <- app_assoc|]. by constructor.
      * intros (parsed & -> & H). inversion H as [|? b ? parsed' Hb H']; subst.
        assert (b = a) as -> by congruence.
        exists parsed'. by rewrite <- app_assoc.
Qed.

(** X18: packages are handled one after the other and independently: the
    functions and the errors of a list of paths in two parts are those of
    the first part followed by those of the second. *)
Theorem X18_getFunctions_app (W : World) (paths1 paths2 : list string) :
  getFunctions W (paths1 ++ paths2)
  = ((getFunctions W paths1).1 ++ (getFunctions W paths2).1,
     (getFunctions W paths1).2 ++ (getFunctions W paths2).2)
  /\ getObjects W (paths1 ++ paths2)
     = ((getObjects W paths1).1 ++ (getObjects W paths2).1,
        (getObjects W paths1).2 ++ (getObjects W paths2).2).
Proof.
  rewrite !getFunctions_spec, !getObjects_spec. simpl.
  by rewrite !fmap_app, !concat_app.
Qed.

(** X19: [getFunctions] hands the errors of [getObjects] on unchanged; there
    is at most one error per path, and there is none exactly when every
    package loads. *)
Theorem X19_errors_per_package (W : World) (paths : list string) :
  (getFunctions W paths).2 = (getObjects W paths).2
  /\ length (getFunctions W paths).2 <= length paths
  /\ ((getFunctions W paths).2 = []
      <-> Forall (fun path => exists pkg, loadPackage W path = inr pkg) paths).
Proof.
  rewrite getFunctions_spec, getObjects_spec. simpl.
  split; [done|]. unfold package_errors.
  induction paths as [|path paths [IH1 IH2]].
  - simpl. split; [lia|]. split; [by constructor|done].
  - rewrite fmap_cons. cbn [concat].
    destruct (loadPackage W path) as [err|pkg] eqn:E; cbn [app length].
    + split; [lia|]. split; [done|]. intros H. inversion H as [|? ? [pkg ?]].
      congruence.
    + split; [lia|]. rewrite IH2. split.
      * intros H. constructor; eauto.
      * intros H. by inversion H.
Qed.

(** X20: a package of the Go root is loaded from compiled data only: the
    parser, the type checker and the file names play no part in what it
    contributes. *)
Theorem X20_goroot_package_is_not_parsed
    (W W' : World) (path : string) (buildPkg : BuildPackage) :
  build_Import W path = inr buildPkg -> Goroot buildPkg = true ->
  build_Import W' path = build_Import W path ->
  types_GcImport W' path = types_GcImport W path ->
  loadPackage W' path = loadPackage W path.
Proof.
  intros Hb Hg Hb' Hgc. unfold loadPackage.
  by rewrite Hb', Hb, Hg, Hgc.
Qed.

Lemma X20_goroot_package_is_not_parsed_witness :
  loadPackage
    (mkWorld (gotool_ImportPaths sample_world) (build_Import sample_world)
       (types_GcImport sample_world) (fun _ _ => "")
       (fun _ => inl "no such file") (fun _ _ => inl "type error") [] "")
    "lib/a"
  = loadPackage sample_world "lib/a".
Proof.
  apply (X20_goroot_package_is_not_parsed sample_world _ "lib/a"
           (mkBuildPackage true "/go/src/lib/a" ["a.go"])); reflexivity.
Defined.

(** X21: when the files of a package parse and the type check fails, the
    error names the package and the checker's error and ends in a newline
    of its own, so that [listErrors] leaves an empty line behind it. *)
Theorem X21_type_check_failure_text
    (W : World) (path : string) (buildPkg : BuildPackage)
    (astFiles : list ast_File) (err : string) :
  build_Import W path = inr buildPkg -> Goroot buildPkg = false ->
  GoFiles buildPkg <> [] ->
  parseFiles W (Dir buildPkg) (GoFiles buildPkg) [] = inr astFiles ->
  types_Check W path astFiles = inl err ->
  package_errors W path = ["Couldn't parse " +:+ path +:+ ": " +:+ err +:+ nl]
  /\ package_functions W path = []
  /\ listErrors (package_errors W path)
     = "Couldn't parse " +:+ path +:+ ": " +:+ err +:+ nl +:+ nl.
Proof.
  intros Hb Hg Hf Hp Hc.
  assert (loadPackage W path
          = inl ("Couldn't parse " +:+ path +:+ ": " +:+ err +:+ nl)) as Hl.
  { unfold loadPackage. rewrite Hb, Hg.
    destruct (GoFiles buildPkg) as [|f fs] eqn:E; [done|].
    cbn [length Nat.eqb]. rewrite Hp. unfold check. rewrite Hc.
    reflexivity. }
  unfold package_functions, package_objects, package_errors. rewrite Hl.
  split; [done|]. split; [done|].
  rewrite listErrors_spec. unfold Println, nl.
  repeat (progress (simpl; rewrite ?string_app_assoc)). reflexivity.
Qed.

Lemma X21_type_check_failure_text_witness :
  package_errors
    (mkWorld (fun paths => paths)
       (fun _ => inr (mkBuildPackage false "src/broken" ["x.go"]))
       (fun _ => inl "no export data") (fun dir file => dir +:+ "/" +:+ file)
       (fun fileName => inr (AstFile fileName))
       (fun _ _ => inl "x.go:3:5: undeclared name: y") [] "")
    "broken"
  = ["Couldn't parse broken: x.go:3:5: undeclared name: y" +:+ nl].
Proof.
  eapply (X21_type_check_failure_text _ "broken"
            (mkBuildPackage false "src/broken" ["x.go"])
            [AstFile "src/broken/x.go"] "x.go:3:5: undeclared name: y").
  - reflexivity.
  - reflexivity.
  - discriminate.
  - reflexivity.
  - reflexivity.
Defined.

Lemma elem_of_concat {A : Type} (x : A) (ls : list (list A)) :
  x ∈ concat ls <-> exists l, l ∈ ls /\ x ∈ l.
Proof.
  rewrite list_elem_of_In, in_concat. split; intros (l & H1 & H2); exists l.
  - by rewrite !list_elem_of_In.
  - by rewrite <- !list_elem_of_In.
Qed.

Lemma elem_of_object_functions (fnc : function) (obj : Object) :
  fnc ∈ object_functions obj
  <-> Pkg fnc = Obj_Pkg obj
      /\ (Obj_Kind obj = IsFunc (fn fnc)
          \/ exists methods,
               Obj_Kind obj = IsTypeName (IsNamed methods) /\ fn fnc ∈ methods).
Proof.
  unfold object_functions. destruct fnc as [f p]. simpl.
  destruct (Obj_Kind obj) as [g|[methods|]|].
  - rewrite list_elem_of_singleton. split.
    + intros [= -> ->]. split; [done|]. by left.
    + intros [-> [[= ->]|(ms & H & _)]]; done.
  - rewrite list_elem_of_fmap. split.
    + intros (m & [= -> ->] & Hm). split; [done|]. right. eauto.
    + intros [-> [H|(ms & [= <-] & Hm)]]; [done|]. eauto.
  - split; [by intros H%not_elem_of_nil|].
    intros [_ [H|(ms & H & _)]]; done.
  - split; [by intros H%not_elem_of_nil|].
    intros [_ [H|(ms & H & _)]]; done.
Qed.

(** X22: the functions handed over are exactly these: for every package
    that loads and every name of its scope, the object itself when it is a
    function, and each of its methods when it is a named type; all of them
    carry the package of the scope object.  A package that fails to load
    hands over nothing. *)
Theorem X22_getFunctions_elements
    (W : World) (paths : list string) (fnc : function) :
  fnc ∈ (getFunctions W paths).1
  <-> exists path pkg n,
        path ∈ paths /\ loadPackage W path = inr pkg /\ n ∈ Scope_Names pkg
        /\ Pkg fnc = Obj_Pkg (Scope_Lookup pkg n)
        /\ (Obj_Kind (Scope_Lookup pkg n) = IsFunc (fn fnc)
            \/ exists methods,
                 Obj_Kind (Scope_Lookup pkg n) = IsTypeName (IsNamed methods)
                 /\ fn fnc ∈ methods).
Proof.
  rewrite getFunctions_spec. simpl. rewrite elem_of_concat. split.
  - intros (l & Hl & Hin). apply list_elem_of_fmap in Hl as (path & -> & Hpath).
    unfold package_functions in Hin. apply elem_of_concat in Hin as (l & Hl & Hin).
    apply list_elem_of_fmap in Hl as (obj & -> & Hobj).
    unfold package_objects in Hobj.
    destruct (loadPackage W path) as [err|pkg] eqn:E;
      [by apply not_elem_of_nil in Hobj|].
    apply list_elem_of_fmap in Hobj as (n & -> & Hn).
    apply elem_of_object_functions in Hin as [Hp Hk].
    exists path, pkg, n. eauto.
  - intros (path & pkg & n & Hpath & Hl & Hn & Hp & Hk).
    exists (package_functions W path). split; [by apply list_elem_of_fmap_2|].
    unfold package_functions. apply elem_of_concat.
    exists (object_functions (Scope_Lookup pkg n)). split.
    + apply list_elem_of_fmap_2. unfold package_objects. rewrite Hl.
      by apply list_elem_of_fmap_2.
    + by apply elem_of_object_functions.
Qed.

(** ** The map of signatures, again *)

Lemma collect_body_not_reported (fl : Flags) (fnc : function)
    (m : gmap string (list string)) :
  reported fl fnc = false -> collect_body fl fnc m = m.
Proof.
  unfold reported, collect_body. destruct (Func_Type (fn fnc)); [|done].
  by intros ->.
Qed.

Lemma collect_filter (fl : Flags) (P : function -> bool) (funcs : list function) :
  (forall fnc, P fnc = false -> reported fl fnc = false) ->
  collect fl (filter (fun fnc => P fnc = true) funcs) = collect fl funcs.
Proof.
  intros HP. induction funcs as [|fnc funcs IH] using rev_ind; [done|].
  rewrite filter_app, filter_cons, filter_nil.
  destruct (P fnc) eqn:E.
  - rewrite decide_True by done. by rewrite !collect_snoc, IH.
  - rewrite decide_False by done. rewrite app_nil_r, collect_snoc, IH.
    by rewrite collect_body_not_reported by auto.
Qed.

(** X23: declarations that are not reported leave no trace in the map of
    signatures, and declarations without a signature (the builtins) are
    never reported: dropping either kind beforehand gives the same map. *)
Theorem X23_collect_ignores_the_unreported (fl : Flags) (funcs : list function) :
  collect fl (filter (fun fnc => reported fl fnc = true) funcs) = collect fl funcs
  /\ collect fl (filter (fun fnc => has_signature fnc = true) funcs)
     = collect fl funcs.
Proof.
  split.
  - by apply (collect_filter fl (reported fl)).
  - apply (collect_filter fl has_signature). intros fnc.
    unfold has_signature, reported. by destruct (Func_Type (fn fnc)).
Qed.

(** X24: the map of signatures never holds a package without lines: a
    package is a key only when it has a line, so the report has no empty
    group. *)
Theorem X24_collect_has_no_empty_group
    (fl : Flags) (funcs : list function) (path : string) :
  collect fl funcs !! path <> Some []
  /\ (collect fl funcs !! path = None <-> group_of fl funcs path = []).
Proof.
  rewrite collect_lookup. by destruct (group_of fl funcs path).
Qed.

(** X25: the lines of a package for a list of declarations in two parts are
    its lines for the first part followed by its lines for the second. *)
Theorem X25_collect_app
    (fl : Flags) (funcs1 funcs2 : list function) (path : string) :
  default [] (collect fl (funcs1 ++ funcs2) !! path)
  = default [] (collect fl funcs1 !! path)
    ++ default [] (collect fl funcs2 !! path).
Proof.
  rewrite !collect_lookup_default. unfold group_of.
  by rewrite filter_app, fmap_app.
Qed.

(** X26: when no declaration is reported the map is empty and the report
    is the empty text: no header, no blank line. *)
Theorem X26_nothing_reported_empty_report
    (fl : Flags) (funcs : list function)
    (order : gmap string (list string) -> list string) :
  range_order_ok order ->
  Forall (fun fnc => reported fl fnc = false) funcs ->
  collect fl funcs = ∅
  /\ printReport (sortedKeys order (collect fl funcs)) (collect fl funcs) = "".
Proof.
  intros Hok Hno.
  assert (collect fl funcs = ∅) as ->.
  { induction funcs as [|fnc funcs IH] using rev_ind; [done|].
    apply Forall_app in Hno as [Hno Hf]. apply Forall_cons in Hf as [Hf _].
    by rewrite collect_snoc, IH, collect_body_not_reported. }
  split; [done|]. rewrite sortedKeys_unfold.
  assert (order ∅ = []) as ->; [|done].
  apply Permutation_nil_r. rewrite (Hok ∅). by rewrite map_to_list_empty.
Qed.

Lemma X26_nothing_reported_empty_report_witness :
  printReport
    (sortedKeys order_forward
       (collect (mkFlags ["lib/b"] ["chan int"] [] false)
          (getFunctions sample_world ["lib/b"]).1))
    (collect (mkFlags ["lib/b"] ["chan int"] [] false)
       (getFunctions sample_world ["lib/b"]).1)
  = "".
Proof.
  apply X26_nothing_reported_empty_report.
  - intros m. reflexivity.
  - vm_compute. repeat constructor.
Defined.

(** ** The run, again *)

Lemma fallbackBanner_spec (W : World) :
  fallbackBanner W
  = match importer_Fallbacks W with
    | [] => ""
    | paths =>
        Println "Relying on gc generated data for..."
        +:+ String.concat "" (Println <$> paths) +:+ Println ""
    end.
Proof.
  unfold fallbackBanner. destruct (importer_Fallbacks W) as [|p ps]; [done|].
  cbn [length Nat.ltb Nat.leb]. by rewrite range_slice_write, string_app_assoc.
Qed.

(** X27: a run that gets past the checks of the command line writes to
    standard error only when the importer fell back on compiled data: then
    the banner, one line per such package and an empty line; otherwise
    nothing. *)
Theorem X27_stderr_is_the_fallback_banner
    (W : World) (order : gmap string (list string) -> list string) (fl : Flags) :
  packages fl <> [] -> arguments fl <> [] \/ returns fl <> [] ->
  Stderr (main W order fl)
  = match importer_Fallbacks W with
    | [] => ""
    | paths =>
        Println "Relying on gc generated data for..."
        +:+ String.concat "" (Println <$> paths) +:+ Println ""
    end.
Proof.
  intros Hp Ht. rewrite (main_run W order fl Hp Ht). simpl.
  apply fallbackBanner_spec.
Qed.

Lemma X27_stderr_is_the_fallback_banner_witness :
  Stderr
    (main
       (mkWorld (gotool_ImportPaths sample_world) (build_Import sample_world)
          (types_GcImport sample_world) (filepath_Join sample_world)
          (parser_ParseFile sample_world) (types_Check sample_world)
          ["fmt"; "io"] "")
       order_forward sample_flags)
  = Println "Relying on gc generated data for..."
    +:+ Println "fmt" +:+ Println "io" +:+ Println "".
Proof.
  rewrite X27_stderr_is_the_fallback_banner.
  - reflexivity.
  - discriminate.
  - left. discriminate.
Defined.

(** X28: a run that fails a check of the command line does not depend on
    the packages at all: no collaborator but the usage text has a part in
    its outcome. *)
Theorem X28_usage_error_loads_nothing
    (W W' : World) (order order' : gmap string (list string) -> list string)
    (fl : Flags) :
  packages fl = [] \/ (arguments fl = [] /\ returns fl = []) ->
  flag_Usage W' = flag_Usage W ->
  main W' order' fl = main W order fl.
Proof.
  intros Hbad Hu. unfold main.
  destruct (packages fl) as [|p ps]; simpl; [by rewrite Hu|].
  destruct Hbad as [?|[-> ->]]; [done|]. simpl. by rewrite Hu.
Qed.

Lemma X28_usage_error_loads_nothing_witness :
  main
    (mkWorld (fun paths => paths) (fun _ => inl "") (fun _ => inl "")
       (fun _ _ => "") (fun _ => inl "") (fun _ _ => inl "") ["fmt"]
       "Usage of uses:")
    order_backward (mkFlags ["lib/a"] [] [] true)
  = main sample_world order_forward (mkFlags ["lib/a"] [] [] true).
Proof.
  apply X28_usage_error_loads_nothing.
  - right. split; reflexivity.
  - reflexivity.
Defined.

Lemma occurs_in_context (x s a b : string) :
  occurs_in x s -> occurs_in x (a +:+ s +:+ b).
Proof.
  intros (u & v & ->). exists (a +:+ u), (v +:+ b).
  by rewrite !string_app_assoc.
Qed.

Lemma occurs_in_refl (x : string) : occurs_in x x.
Proof. exists "", "". simpl. by rewrite string_app_nil_r. Qed.

Lemma string_concat_empty_app (l1 l2 : list string) :
  String.concat "" (l1 ++ l2) = String.concat "" l1 +:+ String.concat "" l2.
Proof.
  induction l1 as [|x l1 IH]; [done|].
  rewrite <- app_comm_cons, !string_concat_empty_cons, IH.
  by rewrite string_app_assoc.
Qed.

Lemma occurs_in_concat (x s : string) (l : list string) :
  s ∈ l -> occurs_in x s -> occurs_in x (String.concat "" l).
Proof.
  intros Hin Hx. apply list_elem_of_split in Hin as (l1 & l2 & ->).
  rewrite string_concat_empty_app, string_concat_empty_cons.
  by apply occurs_in_context.
Qed.

(** X29: every reported declaration is in the output: standard output
    holds the header line of its package and, indented by a tab, its
    signature line. *)
Theorem X29_reported_declaration_is_printed
    (W : World) (order : gmap string (list string) -> list string) (fl : Flags)
    (fnc : function) :
  range_order_ok order ->
  packages fl <> [] -> arguments fl <> [] \/ returns fl <> [] ->
  fnc ∈ (getFunctions W (gotool_ImportPaths W (packages fl))).1 ->
  reported fl fnc = true ->
  strings_Contains (Stdout (main W order fl)) (Println (tab +:+ line_of fnc))
  = true
  /\ strings_Contains (Stdout (main W order fl)) (Println (Pkg fnc +:+ ":"))
     = true.
Proof.
  intros Hok Hp Ht Hin Hrep.
  rewrite (main_run W order fl Hp Ht). cbn [Stdout].
  rewrite getFunctions_spec in Hin. cbn [fst] in Hin.
  set (funcs := concat (package_functions W <$> gotool_ImportPaths W (packages fl)))
    in *.
  rewrite printReport_spec.
  assert (Pkg fnc ∈ sortedKeys order (collect fl funcs)) as Hkey.
  { apply (sortedKeys_elem_of order _ _ Hok), collect_is_key. eauto. }
  assert (line_of fnc ∈ default [] (collect fl funcs !! Pkg fnc)) as Hline.
  { rewrite collect_lookup_default. unfold group_of.
    apply list_elem_of_fmap_2, list_elem_of_filter. auto. }
  set (block := fun path => spec_block path (default [] (collect fl funcs !! path))).
  assert (forall x, occurs_in x (block (Pkg fnc)) ->
            occurs_in x
              (String.concat "" (Println <$> concat
                 (package_errors W <$> gotool_ImportPaths W (packages fl)))
               +:+ String.concat "" (block <$> sortedKeys order (collect fl funcs))))
    as Hblock.
  { intros x Hx.
    rewrite <- (string_app_nil_r (String.concat "" (block <$> _))).
    apply occurs_in_context.
    apply (occurs_in_concat x (block (Pkg fnc))); [|done].
    by apply list_elem_of_fmap_2. }
  split; apply strings_Contains_occurs_in, Hblock; unfold block, spec_block.
  - apply (occurs_in_context _ _ (Println (Pkg fnc +:+ ":")) (Println "")).
    apply (occurs_in_concat _ (Println (tab +:+ line_of fnc)));
      [|apply occurs_in_refl].
    by apply (list_elem_of_fmap_2 (fun sig => Println (tab +:+ sig))).
  - exists "", (String.concat ""
                  ((fun sig => Println (tab +:+ sig))
                     <$> default [] (collect fl funcs !! Pkg fnc))
                +:+ Println "").
    done.
Qed.

Lemma X29_reported_declaration_is_printed_witness :
  strings_Contains (Stdout (main sample_world order_forward sample_flags))
    (Println (tab +:+ "Open(name string) (*File, error)"))
  = true.
Proof.
  destruct (X29_reported_declaration_is_printed sample_world order_forward
              sample_flags
              (mkFunction
                 (mkFunc "Open"
                    (IsSignature
                       (mkSignature None [mkVar "name" "string"]
                          [mkVar "" "*File"; mkVar "" "error"])))
                 "lib/b")) as [H _].
  - intros m. reflexivity.
  - discriminate.
  - left. discriminate.
  - vm_compute. do 2 right. left.
  - reflexivity.
  - exact H.
Defined.
